(** * proxy-scrapper: harvest, deduplicate, validate, persist

    A shallow embedding of the Go programs of the repository:
    - [Deep]     : deep.go (semaphore-bounded checker, quorum 2 of 3);
    - [Part000]  : the streaming variant (150 fixed workers, one target);
    - [Part001a] : the first program of part_001 (gated deduplication,
                   both of 2 targets);
    - [Part001]  : the [ProxyChecker] program of part_001 (retrying
                   harvester, regexp parser, 100 fixed workers, quorum 1
                   of 2).

    Go strings are [string], slices are [list], [map[string]bool] is
    [gmap string bool], [int] status codes are [Z].  The network, the
    clock and the file system are explicit arguments; goroutines are
    modelled by small-step relations on a pool state. *)

From Stdlib Require Import ZArith Ascii String Sorted.
From stdpp Require Import base list gmap strings relations.

Local Open Scope string_scope.
Local Open Scope Z_scope.
Local Open Scope nat_scope.
Local Open Scope list_scope.

(** ** The Go runtime as seen by the programs *)

(** An HTTP response: the status code and the body; [Body = None] is a
    body whose read fails. *)
Record Response := mkResponse { StatusCode : Z; Body : option string }.

(** What the standard library and the network answer to one client.
    [None] is a non-nil [err]. The client of a probe is the one built
    for the proxy address given as first argument of [client_Do]; a
    timeout or a refused connection is an error of [client_Do]. *)
Record Net := mkNet {
  url_Parse : string → option string;
  http_NewRequest : string → option string;
  client_Do : string → string → option Response
}.

(** Log lines: the format string and its arguments, not rendered. *)
Inductive arg := ArgS (s : string) | ArgI (n : Z).
Inductive event :=
  | Println (msg : string)
  | Printf (fmt : string) (args : list arg)
  | Fatal (msg : string).

(** The result of a run of a [main]: the exit status of the process,
    the lines [main] itself gave to the [log] package, the files, the
    candidates handed to the checker and the live list it returned. *)
Record outcome (A : Type) := mkOutcome {
  exit_status : Z;
  log : list event;
  files : gmap string string;
  validated : list A;
  live : list A
}.
Arguments mkOutcome {A}.
Arguments exit_status {A}.
Arguments log {A}.
Arguments files {A}.
Arguments validated {A}.
Arguments live {A}.

(** Files by name. *)
Abbreviation FS := (gmap string string).

(** [os.WriteFile]: success, or an error that may leave anything at the
    path (the file system after the failure is part of the answer). *)
Inductive write_result := WriteOk | WriteErr (msg : string) (remains : option string).

(** [strings.Join]. *)
Fixpoint strings_Join (elems : list string) (sep : string) : string :=
  match elems with
  | [] => ""
  | [x] => x
  | x :: rest => x +:+ sep +:+ strings_Join rest sep
  end.

(** Number of successes among probe outcomes. *)
Definition count_true (l : list bool) : Z :=
  foldl (λ n (b : bool), if b then (n + 1)%Z else n) 0%Z l.

(** The probe rule in the words of the specification: a response whose
    status is below 400 and, when the body check is configured, whose
    body is not empty. *)
Definition spec_probe_success (body_check : bool) (r : option Response) : bool :=
  match r with
  | None => false
  | Some resp =>
      (StatusCode resp <? 400)%Z
      && (if body_check
          then match Body resp with
               | Some b => negb (String.length b =? 0)
               | None => false
               end
          else true)
  end.

(** A network in which every address parses and every request gets
    [200 OK] with a body. *)
Definition net_ok : Net :=
  mkNet (λ u, Some u) (λ u, Some u) (λ _ _, Some (mkResponse 200 (Some "203.0.113.7"))).

(** A network in which only the proxy 1.2.3.4:8080 relays. *)
Definition net_one : Net :=
  mkNet (λ u, Some u) (λ u, Some u)
    (λ proxyURL _, if decide (proxyURL = "http://1.2.3.4:8080")
                   then Some (mkResponse 200 (Some "203.0.113.7")) else None).

(** ** deep.go *)
Module Deep.

Definition maxConcurrentChecks : nat := 200.
Definition goodProxiesFile : string := "good_proxies.txt".

(** [deduplicateProxies]: one pass over the slice carrying the map
    [unique] and the slice [result]. *)
Definition dedup_step (st : gmap string bool * list string) (proxy : string)
  : gmap string bool * list string :=
  match st.1 !! proxy with
  | Some _ => st
  | None => (<[proxy := true]> st.1, st.2 ++ [proxy])
  end.

Definition deduplicateProxies (proxies : list string) : list string :=
  (foldl dedup_step (∅, []) proxies).2.

(** [scrapeAllProxies]: [fetched] lists what [scrapeProxies] returned to
    each source goroutine ([None] is an error), in the order in which
    the goroutines took the mutex. *)
Definition gather (allProxies : list string) (r : option (list string)) : list string :=
  match r with
  | None => allProxies
  | Some proxies => allProxies ++ proxies
  end.

Definition scrapeAllProxies (fetched : list (option (list string))) : list string :=
  deduplicateProxies (foldl gather [] fetched).

(** A source that contributes no candidate: an error or an empty list. *)
Definition no_candidates (r : option (list string)) : bool :=
  match r with
  | Some (_ :: _) => false
  | _ => true
  end.

(** [checkWithClient]. *)
Definition checkWithClient (net : Net) (client : string → option Response)
    (url : string) : bool :=
  match http_NewRequest net url with
  | None => false
  | Some req =>
      match client req with
      | None => false
      | Some resp => (200 <=? StatusCode resp)%Z && (StatusCode resp <? 400)%Z
      end
  end.

Definition targets : list string :=
  ["http://example.com"; "http://httpbin.org/ip"; "http://google.com"].

(** [checkProxy]: the loop over [targets] counts in [successCount]. *)
Definition checkProxy (net : Net) (proxy : string) : bool :=
  match url_Parse net ("http://" +:+ proxy) with
  | None => false
  | Some proxyURL =>
      let client := client_Do net proxyURL in
      let successCount :=
        foldl (λ successCount target,
                 if checkWithClient net client target
                 then (successCount + 1)%Z else successCount) 0%Z targets in
      (2 <=? successCount)%Z
  end.

(** The outcomes of the probes that [checkProxy] issues, in order: one
    per target, none when the proxy address does not parse. *)
Definition probe_outcomes (net : Net) (proxy : string) : list bool :=
  match url_Parse net ("http://" +:+ proxy) with
  | None => []
  | Some proxyURL => map (checkWithClient net (client_Do net proxyURL)) targets
  end.

(** [saveProxiesToFile]; [os_WriteFile] is the operating system's answer
    to the write. *)
Definition saveProxiesToFile (os_WriteFile : string → string → write_result)
    (proxies : list string) (filename : string) (w : FS * list event)
  : FS * list event :=
  if (length proxies =? 0)%nat then
    (w.1, w.2 ++ [Println "Tidak ada proxy yang valid untuk disimpan"])
  else
    let content := strings_Join proxies (String "010" "") in
    match os_WriteFile filename content with
    | WriteOk => (<[filename := content]> w.1, w.2)
    | WriteErr msg remains =>
        (match remains with
         | Some c => <[filename := c]> w.1
         | None => delete filename w.1
         end,
         w.2 ++ [Printf "Gagal menyimpan file: %v" [ArgS msg]])
    end.

(** *** [checkProxiesConcurrently] as a transition system

    One goroutine per proxy; its program points: *)
Inductive gstate :=
  | GStart                    (* before [sem <- struct{}{}] *)
  | GChecking                 (* slot taken, inside [checkProxy] *)
  | GChecked (alive : bool)   (* [checkProxy] returned, before [<-sem] *)
  | GReleased (alive : bool)  (* slot given back, before the append *)
  | GDone (alive : bool).     (* returned, [wg.Done] ran *)

#[global] Instance gstate_eq_dec : EqDecision gstate.
Proof. solve_decision. Defined.

Record pool := mkPool {
  gor : list (string * gstate);   (* the goroutines, in spawn order *)
  sem : nat;                      (* number of tokens in the channel [sem] *)
  goodProxies : list string
}.

Definition init (proxies : list string) : pool :=
  mkPool (map (λ p, (p, GStart)) proxies) 0 [].

(** [cap] is the capacity of [sem]. A send blocks while the channel is
    full, a receive while it is empty; the append runs under [mu]. *)
Inductive step (cap : nat) : pool → pool → Prop :=
  | step_acquire s i p :
      gor s !! i = Some (p, GStart) → sem s < cap →
      step cap s (mkPool (<[i := (p, GChecking)]> (gor s)) (S (sem s)) (goodProxies s))
  | step_check s i p net :
      gor s !! i = Some (p, GChecking) →
      step cap s (mkPool (<[i := (p, GChecked (checkProxy net p))]> (gor s))
                         (sem s) (goodProxies s))
  | step_release s i p alive :
      gor s !! i = Some (p, GChecked alive) → 0 < sem s →
      step cap s (mkPool (<[i := (p, GReleased alive)]> (gor s)) (pred (sem s))
                         (goodProxies s))
  | step_record s i p alive :
      gor s !! i = Some (p, GReleased alive) →
      step cap s (mkPool (<[i := (p, GDone alive)]> (gor s)) (sem s)
                         (if alive then goodProxies s ++ [p] else goodProxies s)).

Definition is_done (g : string * gstate) : bool :=
  match g.2 with GDone _ => true | _ => false end.

(** [wg.Wait] returns once every goroutine has returned. *)
Definition finished (s : pool) : Prop := forallb is_done (gor s) = true.

(** A complete run of [checkProxiesConcurrently proxies] ending in [s];
    the function returns [goodProxies s]. *)
Definition run (proxies : list string) (s : pool) : Prop :=
  rtc (step maxConcurrentChecks) (init proxies) s ∧ finished s.

(** Number of goroutines inside [checkProxy]. *)
Definition checking (s : pool) : nat :=
  length (filter (λ g, g.2 = GChecking) (gor s)).

(** The verdicts of a finished pool. *)
Definition verdict_of (alive : bool) (s : pool) : list string :=
  (filter (λ g, g.2 = GDone alive) (gor s)).*1.

(** The pool after the schedule in which the goroutines run one after
    the other, in spawn order. *)
Definition sequential_final (net : Net) (proxies : list string) : pool :=
  mkPool (map (λ p, (p, GDone (checkProxy net p))) proxies) 0
         (filter (λ p, checkProxy net p) proxies).

(** Goroutines holding a slot of [sem]. *)
Definition holds_slot (g : string * gstate) : bool :=
  match g.2 with GChecking | GChecked _ => true | _ => false end.

(** What every reachable pool satisfies. *)
Record inv (cap : nat) (proxies : list string) (s : pool) : Prop := mkInv {
  inv_addr : (gor s).*1 = proxies;
  inv_sem : sem s = length (filter holds_slot (gor s));
  inv_cap : sem s ≤ cap;
  inv_good : goodProxies s ≡ₚ verdict_of true s
}.

(** Transitions a goroutine has still to make, and their total. *)
Definition steps_left (g : string * gstate) : nat :=
  match g.2 with
  | GStart => 4
  | GChecking => 3
  | GChecked _ => 2
  | GReleased _ => 1
  | GDone _ => 0
  end.

Definition work_left (s : pool) : nat := sum_list_with steps_left (gor s).

(** The verdict a goroutine carries once [checkProxy] has returned. *)
Definition verdict (g : gstate) : option bool :=
  match g with
  | GChecked alive | GReleased alive | GDone alive => Some alive
  | _ => None
  end.

(** Every verdict in the pool is the one [net] gives. *)
Definition judged (net : Net) (s : pool) : Prop :=
  ∀ i p g alive, gor s !! i = Some (p, g) → verdict g = Some alive →
                 alive = checkProxy net p.

(** A transition during which the network answers as [net]: a call of
    [checkProxy] that returns in it returns what [net] gives. *)
Definition step_under (net : Net) (cap : nat) (s s' : pool) : Prop :=
  step cap s s' ∧
  ∀ i p alive, gor s !! i = Some (p, GChecking) →
               gor s' !! i = Some (p, GChecked alive) → alive = checkProxy net p.

(** *** [main] *)
Inductive main (fetched : list (option (list string)))
    (os_WriteFile : string → string → write_result) (fs : FS) : outcome string → Prop :=
  | main_empty :
      let allProxies := scrapeAllProxies fetched in
      length allProxies = 0 →
      main fetched os_WriteFile fs
        (mkOutcome 0 [Println "Memulai proses scraping proxy...";
                      Printf "Berhasil mengumpulkan %d proxy\n" [ArgI 0];
                      Println "Tidak ada proxy yang ditemukan, keluar..."]
                   fs [] [])
  | main_checked s :
      let allProxies := scrapeAllProxies fetched in
      length allProxies ≠ 0 →
      run allProxies s →
      let w := saveProxiesToFile os_WriteFile (goodProxies s) goodProxiesFile
                 (fs, [Println "Memulai proses scraping proxy...";
                       Printf "Berhasil mengumpulkan %d proxy\n"
                         [ArgI (Z.of_nat (length allProxies))];
                       Println "Memulai pengecekan proxy...";
                       Printf "\nSelesai! Proxy baik: %d, Proxy mati: %d\n"
                         [ArgI (Z.of_nat (length (goodProxies s)));
                          ArgI (Z.of_nat (length allProxies)
                                - Z.of_nat (length (goodProxies s)))]]) in
      main fetched os_WriteFile fs
        (mkOutcome 0 (w.2 ++ [Printf "Proxy yang baik disimpan di %s\n" [ArgS goodProxiesFile]])
                   w.1 allProxies (goodProxies s)).

End Deep.

(** ** part_000: the streaming variant *)
Module Part000.

Definition workerCount : nat := 150.
Definition checkURL : string := "https://api.ipify.org".

(** [client.Get]: build the request, then send it. *)
Definition client_Get (net : Net) (proxyURL url : string) : option Response :=
  match http_NewRequest net url with
  | None => None
  | Some req => client_Do net proxyURL req
  end.

(** The body of the loop of [checkProxyWorker] for one [proxyAddr]:
    [true] when the address is sent on [liveProxiesChan]. *)
Definition probe (net : Net) (proxyAddr : string) : bool :=
  match url_Parse net ("http://" +:+ proxyAddr) with
  | None => false
  | Some proxyURL =>
      match client_Get net proxyURL checkURL with
      | None => false
      | Some resp => (StatusCode resp =? 200)%Z
      end
  end.

(** Program points of one [checkProxyWorker]. *)
Inductive wstate :=
  | WIdle                    (* at [range proxiesChan] *)
  | WChecking (p : string)   (* between the receive and the verdict *)
  | WSending (p : string)    (* at [liveProxiesChan <- proxyAddr] *)
  | WExited.

#[global] Instance wstate_eq_dec : EqDecision wstate.
Proof. solve_decision. Defined.

Record state := mkState {
  scrapers : list (list string);   (* lines each scraper still has to send *)
  scraped : list string;           (* buffer of [scrapedProxiesChan] *)
  scraped_closed : bool;
  workers : list wstate;
  live : list string;              (* buffer of [liveProxiesChan] *)
  live_closed : bool;
  uniqueProxies : gmap string bool;
  written : list string            (* lines given to the file writer *)
}.

Definition init (sources : list (list string)) : state :=
  mkState sources [] false (replicate workerCount WIdle) [] false ∅ [].

Definition is_checking (w : wstate) : bool :=
  match w with WChecking _ => true | _ => false end.

(** Number of workers with a probe in flight. *)
Definition checking (s : state) : nat := length (filter is_checking (workers s)).

Inductive step : state → state → Prop :=
  | step_scrape s j p rest :
      scrapers s !! j = Some (p :: rest) →
      length (scraped s) < workerCount * 10 →
      step s (mkState (<[j := rest]> (scrapers s)) (scraped s ++ [p]) (scraped_closed s)
                (workers s) (live s) (live_closed s) (uniqueProxies s) (written s))
  | step_close_scraped s :
      Forall (λ l, l = []) (scrapers s) → scraped_closed s = false →
      step s (mkState (scrapers s) (scraped s) true
                (workers s) (live s) (live_closed s) (uniqueProxies s) (written s))
  | step_recv s i p rest :
      workers s !! i = Some WIdle → scraped s = p :: rest →
      step s (mkState (scrapers s) rest (scraped_closed s)
                (<[i := WChecking p]> (workers s)) (live s) (live_closed s)
                (uniqueProxies s) (written s))
  | step_exit s i :
      workers s !! i = Some WIdle → scraped s = [] → scraped_closed s = true →
      step s (mkState (scrapers s) (scraped s) (scraped_closed s)
                (<[i := WExited]> (workers s)) (live s) (live_closed s)
                (uniqueProxies s) (written s))
  | step_check s i p net :
      workers s !! i = Some (WChecking p) →
      step s (mkState (scrapers s) (scraped s) (scraped_closed s)
                (<[i := if probe net p then WSending p else WIdle]> (workers s))
                (live s) (live_closed s) (uniqueProxies s) (written s))
  | step_send_live s i p :
      workers s !! i = Some (WSending p) → length (live s) < workerCount →
      step s (mkState (scrapers s) (scraped s) (scraped_closed s)
                (<[i := WIdle]> (workers s)) (live s ++ [p]) (live_closed s)
                (uniqueProxies s) (written s))
  | step_close_live s :
      Forall (λ w, w = WExited) (workers s) → live_closed s = false →
      step s (mkState (scrapers s) (scraped s) (scraped_closed s)
                (workers s) (live s) true (uniqueProxies s) (written s))
  | step_collect s p rest (write_ok : bool) :
      live s = p :: rest →
      step s (mkState (scrapers s) (scraped s) (scraped_closed s)
                (workers s) rest (live_closed s)
                (match uniqueProxies s !! p with
                 | Some _ => uniqueProxies s
                 | None => <[p := true]> (uniqueProxies s)
                 end)
                (match uniqueProxies s !! p with
                 | Some _ => written s
                 | None => if write_ok then written s ++ [p] else written s
                 end)).

(** The address a worker holds, if any. *)
Definition in_flight (w : wstate) : list string :=
  match w with
  | WChecking p | WSending p => [p]
  | _ => []
  end.

(** [main] returns once the collector has seen [liveProxiesChan] closed
    and empty. *)
Definition finished (s : state) : Prop := live_closed s = true ∧ live s = [].

(** What every reachable state satisfies: the channels stay within
    their capacity, every address in the pipeline comes from a source,
    the file has no duplicate line, a worker leaves only once its input
    is closed and drained, and each channel is closed only after its
    producers are done. *)
Record inv (sources : list (list string)) (s : state) : Prop := mkInv {
  inv_workers : length (workers s) = workerCount;
  inv_scraped_cap : length (scraped s) ≤ workerCount * 10;
  inv_live_cap : length (live s) ≤ workerCount;
  inv_from_scrapers : ∀ l x, l ∈ scrapers s → x ∈ l → x ∈ mjoin sources;
  inv_from_scraped : ∀ x, x ∈ scraped s → x ∈ mjoin sources;
  inv_from_workers : ∀ w x, w ∈ workers s → x ∈ in_flight w → x ∈ mjoin sources;
  inv_from_live : ∀ x, x ∈ live s → x ∈ mjoin sources;
  inv_from_written : ∀ x, x ∈ written s → x ∈ mjoin sources;
  inv_unique : ∀ x, x ∈ written s → uniqueProxies s !! x = Some true;
  inv_nodup : NoDup (written s);
  inv_exited : WExited ∈ workers s → scraped_closed s = true ∧ scraped s = [];
  inv_closed : scraped_closed s = true → Forall (λ l, l = []) (scrapers s);
  inv_live_closed : live_closed s = true → Forall (λ w, w = WExited) (workers s)
}.

(** Transitions still to come, at most: five per address a scraper has
    still to send, four per address queued for the workers, those of
    each worker (its exit included), one per live address queued for the
    collector, and the two closes. *)
Definition steps_left (w : wstate) : nat :=
  match w with
  | WIdle => 1
  | WChecking _ => 4
  | WSending _ => 3
  | WExited => 0
  end.

Definition work_left (s : state) : nat :=
  5 * sum_list_with length (scrapers s) + 4 * length (scraped s)
  + sum_list_with steps_left (workers s) + length (live s)
  + (if scraped_closed s then 0 else 1) + (if live_closed s then 0 else 1).

End Part000.

(** ** part_001, first program: the two-target checker *)
Module Part001a.

(** [len(strings.Split(proxy, ":"))]: one more than the number of colons. *)
Fixpoint count_colons (s : string) : nat :=
  match s with
  | "" => 0
  | String c t => (if Ascii.eqb c ":" then 1 else 0) + count_colons t
  end.

Definition split_len (proxy : string) : nat := S (count_colons proxy).

(** The addresses that [deduplicateProxies] does not skip. *)
Definition well_split (proxy : string) : bool := split_len proxy =? 2.

(** [deduplicateProxies]: as in deep.go, behind the test on the parts. *)
Definition dedup_step (st : gmap string bool * list string) (proxy : string)
  : gmap string bool * list string :=
  if negb (split_len proxy =? 2) then st
  else match st.1 !! proxy with
       | Some _ => st
       | None => (<[proxy := true]> st.1, st.2 ++ [proxy])
       end.

Definition deduplicateProxies (proxies : list string) : list string :=
  (foldl dedup_step (∅, []) proxies).2.

(** [checkWithClient]: [client.Get] builds the request and sends it. *)
Definition checkWithClient (net : Net) (client : string → option Response)
    (url : string) : bool :=
  match http_NewRequest net url with
  | None => false
  | Some req =>
      match client req with
      | None => false
      | Some resp => (200 <=? StatusCode resp)%Z && (StatusCode resp <? 400)%Z
      end
  end.

(** [checkProxy]: both requests are made, then both must have succeeded. *)
Definition checkProxy (net : Net) (proxy : string) : bool :=
  match url_Parse net ("http://" +:+ proxy) with
  | None => false
  | Some proxyURL =>
      let client := client_Do net proxyURL in
      let check1 := checkWithClient net client "http://example.com" in
      let check2 := checkWithClient net client "http://httpbin.org/ip" in
      check1 && check2
  end.

(** The outcomes of the probes that [checkProxy] issues, in order. *)
Definition probe_outcomes (net : Net) (proxy : string) : list bool :=
  match url_Parse net ("http://" +:+ proxy) with
  | None => []
  | Some proxyURL =>
      map (checkWithClient net (client_Do net proxyURL))
          ["http://example.com"; "http://httpbin.org/ip"]
  end.

End Part001a.

(** ** part_001: the [ProxyChecker] program *)
Module Part001.

Record Proxy := mkProxy { IP : string; Port : string; Full : string }.

#[global] Instance Proxy_eq_dec : EqDecision Proxy.
Proof. solve_decision. Defined.

(** *** Text helpers *)

Definition isDigit (c : ascii) : bool :=
  (48 <=? nat_of_ascii c) && (nat_of_ascii c <=? 57).

(** At most [n] leading digits of [s], and what follows them. *)
Fixpoint digits (n : nat) (s : string) : string * string :=
  match n, s with
  | S n', String c t =>
      if isDigit c then (String c (digits n' t).1, (digits n' t).2) else ("", s)
  | _, _ => ("", s)
  end.

(** [\d{1,n}] followed by the literal [sep]. *)
Definition digits_then (n : nat) (sep : ascii) (s : string) : option (string * string) :=
  match digits n s with
  | (String c d, String c' r) => if Ascii.eqb c' sep then Some (String c d, r) else None
  | _ => None
  end.

(** The regular expression [(\d{1,3}\.\d{1,3}\.\d{1,3}\.\d{1,3}):(\d{1,5})]
    anchored at the start of [s]: the two groups. Every repetition is
    greedy and is followed by a literal that is not a digit, so the
    match at a position is unique. *)
Definition match_here (s : string) : option (string * string) :=
  o1 ← digits_then 3 "." s;
  o2 ← digits_then 3 "." o1.2;
  o3 ← digits_then 3 "." o2.2;
  o4 ← digits_then 3 ":" o3.2;
  match digits 5 o4.2 with
  | (String c d, _) =>
      Some (o1.1 +:+ "." +:+ o2.1 +:+ "." +:+ o3.1 +:+ "." +:+ o4.1, String c d)
  | _ => None
  end.

(** [re.FindAllStringSubmatch content (-1)]: leftmost matches that do
    not overlap; [skip] counts the characters of the match in progress
    that are still to be passed. *)
Fixpoint find_all (skip : nat) (s : string) : list (list string) :=
  match s with
  | "" => []
  | String c t =>
      match skip with
      | S k => find_all k t
      | O =>
          match match_here s with
          | Some (ip, port) =>
              [ip +:+ ":" +:+ port; ip; port]
                :: find_all (String.length ip + String.length port) t
          | None => find_all 0 t
          end
      end
  end.

(** [net.ParseIP] on dotted-decimal text, the only text the regular
    expression captures: four fields, no empty field, no leading zero,
    no field above 255. *)
Fixpoint parseIPv4 (s : string) (val : Z) (digLen pos : nat) : bool :=
  match s with
  | "" => (0 <? digLen) && (pos =? 3)
  | String c t =>
      if isDigit c then
        if (digLen =? 1) && (val =? 0)%Z then false
        else
          let val' := (val * 10 + Z.of_nat (nat_of_ascii c) - 48)%Z in
          if (255 <? val')%Z then false else parseIPv4 t val' (S digLen) pos
      else if Ascii.eqb c "." then
        if (digLen =? 0) || (pos =? 3) then false else parseIPv4 t 0%Z 0 (S pos)
      else false
  end.

Definition isValidIP (ip : string) : bool := parseIPv4 ip 0%Z 0 0.

Definition isValidPort (port : string) : bool :=
  if (String.length port =? 0) || (5 <? String.length port) then false
  else forallb isDigit (list_ascii_of_string port).

(** Strings made of decimal digits only. *)
Definition all_digits (s : string) : bool :=
  forallb isDigit (list_ascii_of_string s).

(** The scanner of [parseIPv4] inside a field: the digits read so far
    and the value they denote. *)
Definition octet_state (val : Z) (digLen : nat) : Prop :=
  match digLen with
  | 0 => val = 0%Z
  | 1 => (0 ≤ val ≤ 9)%Z
  | 2 => (10 ≤ val ≤ 99)%Z
  | 3 => (100 ≤ val ≤ 255)%Z
  | _ => False
  end.

(** [parseProxies]: the body of the loop over the matches, then the loop. *)
Definition parse_step (proxies : list Proxy) (m : list string) : list Proxy :=
  if 3 <=? length m then
    match m !! 1, m !! 2 with
    | Some ip, Some port =>
        if isValidIP ip && isValidPort port
        then proxies ++ [mkProxy ip port (ip +:+ ":" +:+ port)]
        else proxies
    | _, _ => proxies
    end
  else proxies.

Definition parseProxies (content : string) : list Proxy :=
  foldl parse_step [] (find_all 0 content).

(** What [parseProxies] checks of a proxy it emits. *)
Definition well_formed (p : Proxy) : Prop :=
  isValidIP (IP p) = true
  ∧ isValidPort (Port p) = true
  ∧ Full p = IP p +:+ ":" +:+ Port p.

(** The number a string of digits denotes. *)
Definition port_number (port : string) : Z :=
  foldl (λ n c, (n * 10 + Z.of_nat (nat_of_ascii c) - 48)%Z) 0%Z
        (list_ascii_of_string port).


(** [unicode.IsSpace] at the head of a UTF-8 string: the length in bytes
    of a white-space character that starts [s], or 0. *)
Definition space_width (s : list ascii) : nat :=
  match map nat_of_ascii s with
  | c :: rest =>
      if ((9 <=? c) && (c <=? 13)) || (c =? 32) then 1
      else match c, rest with
           | 194, d :: _ => if (d =? 133) || (d =? 160) then 2 else 0
           | 225, 154 :: 128 :: _ => 3
           | 226, 128 :: e :: _ =>
               if ((128 <=? e) && (e <=? 138)) || (e =? 168) || (e =? 169) || (e =? 175)
               then 3 else 0
           | 226, 129 :: 159 :: _ => 3
           | 227, 128 :: 128 :: _ => 3
           | _, _ => 0
           end
  | [] => 0
  end.

(** The same read from the end: [r] is the string reversed. *)
Definition space_width_back (r : list ascii) : nat :=
  match r with
  | c :: _ =>
      if (nat_of_ascii c <? 128) then space_width [c]
      else match r with
           | d :: c1 :: rest =>
               if (space_width [c1; d] =? 2) then 2
               else match rest with
                    | c0 :: _ => if (space_width [c0; c1; d] =? 3) then 3 else 0
                    | [] => 0
                    end
           | _ => 0
           end
  | [] => 0
  end.

Fixpoint trim_with (width : list ascii → nat) (skip : nat) (s : list ascii) : list ascii :=
  match s with
  | [] => []
  | c :: t =>
      match skip with
      | S k => trim_with width k t
      | O => match width s with
             | O => s
             | S k => trim_with width k t
             end
      end
  end.

(** [strings.TrimSpace]. *)
Definition strings_TrimSpace (s : string) : string :=
  string_of_list_ascii
    (rev (trim_with space_width_back 0
            (rev (trim_with space_width 0 (list_ascii_of_string s))))).

(** *** The harvester *)

(** What [client.Get] returns: a response and a nil error, or an error
    (with the response Go gives along with it, if any). *)
Inductive get_result :=
  | GetOk (resp : Response)
  | GetErr (msg : string) (resp : option Response).

Record fetch_state := mkFetch {
  resp_var : option Response;
  err_var : option string;
  attempts : nat;        (* calls of [client.Get] so far *)
  sleeps : list Z        (* the arguments of [time.Sleep], in order *)
}.

Definition time_Second : Z := 1000000000.

(** The retry loop [for i := 0; i < 3; i++] with [n] iterations left;
    [client_Get i] is the answer to the call made in iteration [i]. *)
Fixpoint fetch_loop (client_Get : Z → get_result) (n : nat) (i : Z)
    (st : fetch_state) : fetch_state :=
  match n with
  | O => st
  | S n' =>
      let '(resp, err) :=
        match client_Get i with
        | GetOk r => (Some r, None)
        | GetErr msg r => (r, Some msg)
        end in
      let ok :=
        match err, resp with
        | None, Some r => (StatusCode r =? 200)%Z
        | _, _ => false
        end in
      if ok then mkFetch resp err (S (attempts st)) (sleeps st)
      else fetch_loop client_Get n' (i + 1)%Z
             (mkFetch resp err (S (attempts st))
                      (sleeps st ++ [((i + 1) * time_Second)%Z]))
  end.

(** An attempt that the loop does not accept: an error, or a status
    other than 200. *)
Definition transient_failure (r : get_result) : bool :=
  match r with
  | GetOk resp => negb (StatusCode resp =? 200)%Z
  | GetErr _ _ => true
  end.

Inductive scrape_result :=
  | Scraped (proxies : list Proxy)
  | ErrFetch (cause : string)    (* "failed to fetch after 3 attempts: %w" *)
  | ErrHTTP (code : Z)           (* "HTTP %d" *)
  | ErrRead                      (* "failed to read response: %w" *)
  | NilResponse.                 (* [resp] nil with a nil [err]: a panic *)

Definition fetch (client_Get : Z → get_result) : fetch_state :=
  fetch_loop client_Get 3 0%Z (mkFetch None None 0 []).

(** [scrapeProxiesFromURL]. *)
Definition scrapeProxiesFromURL (client_Get : Z → get_result) : scrape_result :=
  let st := fetch client_Get in
  match err_var st with
  | Some msg => ErrFetch msg
  | None =>
      match resp_var st with
      | None => NilResponse
      | Some resp =>
          if negb (StatusCode resp =? 200)%Z then ErrHTTP (StatusCode resp)
          else match Body resp with
               | None => ErrRead
               | Some body => Scraped (parseProxies body)
               end
      end
  end.

(** [removeDuplicateProxies]; a missing key of [seen] reads [false]. *)
Definition remove_step (st : gmap string bool * list Proxy) (proxy : Proxy)
  : gmap string bool * list Proxy :=
  if negb (default false (st.1 !! Full proxy))
  then (<[Full proxy := true]> st.1, st.2 ++ [proxy])
  else st.

Definition removeDuplicateProxies (proxies : list Proxy) : list Proxy :=
  (foldl remove_step (∅, []) proxies).2.

(** [scrapeAllProxies]: [scraped] lists what [scrapeProxiesFromURL]
    returned to each source goroutine, in the order in which they took
    the mutex. *)
Definition gather (allProxies : list Proxy) (r : scrape_result) : list Proxy :=
  match r with
  | Scraped proxies => allProxies ++ proxies
  | _ => allProxies
  end.

Definition scrapeAllProxies (scraped : list scrape_result) : list Proxy :=
  removeDuplicateProxies (foldl gather [] scraped).

(** A source that contributes no candidate. *)
Definition no_candidates (r : scrape_result) : bool :=
  match r with
  | Scraped (_ :: _) => false
  | _ => true
  end.

(** *** The validator *)

(** [testProxyConnection]; the client is the one built for
    ["http://" + proxy.Full]. *)
Definition testProxyConnection (net : Net) (proxy : Proxy) (testURL : string) : bool :=
  let proxyURL := "http://" +:+ Full proxy in
  match http_NewRequest net testURL with
  | None => false
  | Some req =>
      match client_Do net proxyURL req with
      | None => false
      | Some resp =>
          if negb (StatusCode resp =? 200)%Z then false
          else match Body resp with
               | None => false
               | Some body => 0 <? String.length (strings_TrimSpace body)
               end
      end
  end.

Definition testURLs : list string := ["http://httpbin.org/ip"; "http://icanhazip.com"].

(** [ProxyChecker.checkProxy]. *)
Definition checkProxy (net : Net) (proxy : Proxy) : bool :=
  let successCount :=
    foldl (λ successCount testURL,
             if testProxyConnection net proxy testURL
             then (successCount + 1)%Z else successCount) 0%Z testURLs in
  (1 <=? successCount)%Z.

(** The outcomes of the probes that [checkProxy] issues, in order. *)
Definition probe_outcomes (net : Net) (proxy : Proxy) : list bool :=
  map (testProxyConnection net proxy) testURLs.

(** *** [validateProxies] and [worker] as a transition system *)
Inductive wstate :=
  | WIdle                              (* at [range jobs] *)
  | WChecking (p : Proxy)              (* inside [pc.checkProxy] *)
  | WChecked (p : Proxy) (ok : bool)   (* before [pc.mu.Lock] *)
  | WExited.                           (* [jobs] closed and drained *)

#[global] Instance wstate_eq_dec : EqDecision wstate.
Proof. solve_decision. Defined.

Record pool := mkPool {
  tosend : list Proxy;      (* what the loop [jobs <- proxy] has still to send *)
  jobs : list Proxy;        (* buffer of the channel [jobs] *)
  jobs_cap : nat;
  closed : bool;
  workers : list wstate;
  validProxies : list Proxy;
  invalidProxies : list Proxy
}.

Definition init (maxWorkers : nat) (proxies : list Proxy) : pool :=
  mkPool proxies [] (length proxies) false (replicate maxWorkers WIdle) [] [].

Inductive step : pool → pool → Prop :=
  | step_send s p rest :
      tosend s = p :: rest → length (jobs s) < jobs_cap s →
      step s (mkPool rest (jobs s ++ [p]) (jobs_cap s) (closed s) (workers s)
                (validProxies s) (invalidProxies s))
  | step_close s :
      tosend s = [] → closed s = false →
      step s (mkPool (tosend s) (jobs s) (jobs_cap s) true (workers s)
                (validProxies s) (invalidProxies s))
  | step_recv s i p rest :
      workers s !! i = Some WIdle → jobs s = p :: rest →
      step s (mkPool (tosend s) rest (jobs_cap s) (closed s)
                (<[i := WChecking p]> (workers s))
                (validProxies s) (invalidProxies s))
  | step_exit s i :
      workers s !! i = Some WIdle → jobs s = [] → closed s = true →
      step s (mkPool (tosend s) (jobs s) (jobs_cap s) (closed s)
                (<[i := WExited]> (workers s))
                (validProxies s) (invalidProxies s))
  | step_check s i p net :
      workers s !! i = Some (WChecking p) →
      step s (mkPool (tosend s) (jobs s) (jobs_cap s) (closed s)
                (<[i := WChecked p (checkProxy net p)]> (workers s))
                (validProxies s) (invalidProxies s))
  | step_record s i p ok :
      workers s !! i = Some (WChecked p ok) →
      step s (mkPool (tosend s) (jobs s) (jobs_cap s) (closed s)
                (<[i := WIdle]> (workers s))
                (if ok then validProxies s ++ [p] else validProxies s)
                (if ok then invalidProxies s else invalidProxies s ++ [p])).

(** [validateProxies] returns once the sends and the close are done and
    every worker has returned. *)
Definition finished (s : pool) : Prop :=
  tosend s = [] ∧ closed s = true ∧ Forall (λ w, w = WExited) (workers s).

Definition run (maxWorkers : nat) (proxies : list Proxy) (s : pool) : Prop :=
  rtc step (init maxWorkers proxies) s ∧ finished s.

Definition is_checking (w : wstate) : bool :=
  match w with WChecking _ => true | _ => false end.

(** Number of workers inside [checkProxy]. *)
Definition checking (s : pool) : nat := length (filter is_checking (workers s)).

(** The candidate a worker holds, if any. *)
Definition in_flight (w : wstate) : list Proxy :=
  match w with
  | WChecking p | WChecked p _ => [p]
  | _ => []
  end.

(** What every reachable pool satisfies: no candidate is lost or
    duplicated, nothing is sent after the close, and a worker leaves only
    once the channel is closed and drained. *)
Record inv (maxWorkers : nat) (proxies : list Proxy) (s : pool) : Prop := mkInv {
  inv_all :
    validProxies s ++ invalidProxies s ++ (workers s ≫= in_flight)
      ++ jobs s ++ tosend s ≡ₚ proxies;
  inv_closed : closed s = true → tosend s = [];
  inv_exited : WExited ∈ workers s → jobs s = [] ∧ closed s = true;
  inv_workers : length (workers s) = maxWorkers;
  inv_cap : length (jobs s) + length (tosend s) ≤ jobs_cap s
}.

(** Transitions still to come: four per candidate not yet sent, three
    per queued candidate, those of each worker (its exit included), and
    the close. *)
Definition steps_left (w : wstate) : nat :=
  match w with
  | WIdle => 1
  | WChecking _ => 3
  | WChecked _ _ => 2
  | WExited => 0
  end.

Definition work_left (s : pool) : nat :=
  4 * length (tosend s) + 3 * length (jobs s)
  + sum_list_with steps_left (workers s) + (if closed s then 0 else 1).

(** The pool after the schedule in which one worker does all the work. *)
Definition sequential_final (net : Net) (W : nat) (proxies : list Proxy) : pool :=
  mkPool [] [] (length proxies) true (replicate W WExited)
    (filter (λ p, checkProxy net p) proxies)
    (filter (λ p, negb (checkProxy net p)) proxies).

(** Every verdict in the pool is the one [net] gives. *)
Definition judged (net : Net) (s : pool) : Prop :=
  (∀ i p ok, workers s !! i = Some (WChecked p ok) → ok = checkProxy net p)
  ∧ Forall (λ p, checkProxy net p = true) (validProxies s)
  ∧ Forall (λ p, checkProxy net p = false) (invalidProxies s).

(** A transition during which the network answers as [net]. *)
Definition step_under (net : Net) (s s' : pool) : Prop :=
  step s s' ∧
  ∀ i p ok, workers s !! i = Some (WChecking p) →
            workers s' !! i = Some (WChecked p ok) → ok = checkProxy net p.

(** *** The persister *)

(** What the file system answers to the writes of one file. *)
Inductive file_write :=
  | Stored                                           (* every byte reached the file *)
  | FailedInLoop (msg : string) (on_disk : string)   (* a [WriteString] failed *)
  | FailedAtFlush (on_disk : string).                (* the deferred [Flush] failed *)

Inductive save_error :=
  | ErrCreate (filename msg : string)   (* "failed to create file %s: %w" *)
  | ErrWrite (msg : string).            (* "failed to write to file: %w" *)

Record OS := mkOS {
  os_Create : string → option string;
  os_Write : string → string → file_write
}.

(** [saveProxiesToFile]. *)
Definition saveProxiesToFile (os : OS) (proxies : list Proxy) (filename : string)
    (fs : FS) : FS * option save_error :=
  match os_Create os filename with
  | Some msg => (fs, Some (ErrCreate filename msg))
  | None =>
      let content :=
        foldl (λ acc proxy, acc +:+ Full proxy +:+ String "010" "") "" proxies in
      match os_Write os filename content with
      | Stored => (<[filename := content]> fs, None)
      | FailedInLoop msg on_disk => (<[filename := on_disk]> fs, Some (ErrWrite msg))
      | FailedAtFlush on_disk => (<[filename := on_disk]> fs, None)
      end
  end.

Definition maxWorkers : nat := 100.

Definition error_text (e : save_error) : list arg :=
  match e with
  | ErrCreate filename msg => [ArgS filename; ArgS msg]
  | ErrWrite msg => [ArgS msg]
  end.

Definition log_error (fmt : string) (e : option save_error) : list event :=
  match e with
  | Some err => [Printf fmt (error_text err)]
  | None => []
  end.

(** *** [main]; [log.Fatal] ends the process with status 1. *)
Inductive main (scraped : list scrape_result) (os : OS) (fs : FS)
  : outcome Proxy → Prop :=
  | main_fatal :
      length (scrapeAllProxies scraped) = 0 →
      main scraped os fs
        (mkOutcome 1 [Fatal "❌ Tidak ada proxy yang berhasil di-scrape"] fs [] [])
  | main_validated s :
      let allProxies := scrapeAllProxies scraped in
      length allProxies ≠ 0 →
      run maxWorkers allProxies s →
      let r1 := saveProxiesToFile os (validProxies s) "claude_valid_proxies.txt" fs in
      let r2 := saveProxiesToFile os (invalidProxies s) "claude_invalid_proxies.txt" r1.1 in
      main scraped os fs
        (mkOutcome 0
           (log_error "❌ Error menyimpan proxy valid: %v" r1.2
            ++ log_error "❌ Error menyimpan proxy invalid: %v" r2.2)
           r2.1 allProxies (validProxies s)).

End Part001.

(** ** First occurrences

    The element at position [i] of [l0] is kept exactly when its key
    does not occur among the keys of the first [i] elements of [l0]. *)
Fixpoint keep_firsts {A} (key : A → string) (l0 : list A) (i : nat) (l : list A) : list A :=
  match l with
  | [] => []
  | x :: t =>
      if decide (key x ∈ key <$> take i l0) then keep_firsts key l0 (S i) t
      else x :: keep_firsts key l0 (S i) t
  end.

Definition first_occurrences {A} (key : A → string) (l : list A) : list A :=
  keep_firsts key l 0 l.

(** * Proofs *)

Section first_occurrences_facts.
Context {A : Type} (key : A → string).
Implicit Types l t : list A.

Lemma take_S_drop (l0 : list A) i x t :
  drop i l0 = x :: t → take (S i) l0 = take i l0 ++ [x] ∧ drop (S i) l0 = t.
Proof.
  intros Hd. split.
  - apply take_S_r. rewrite <- (Nat.add_0_r i), <- lookup_drop, Hd. done.
  - replace (S i) with (i + 1) by lia. by rewrite <- drop_drop, Hd.
Qed.

Lemma keys_take_S (l0 : list A) i x t k :
  drop i l0 = x :: t →
  k ∈ key <$> take (S i) l0 ↔ k ∈ key <$> take i l0 ∨ k = key x.
Proof.
  intros Hd. destruct (take_S_drop _ _ _ _ Hd) as [-> _].
  rewrite fmap_app, elem_of_app. simpl. by rewrite list_elem_of_singleton.
Qed.

Lemma keep_firsts_sublist (l0 : list A) l i : sublist (keep_firsts key l0 i l) l.
Proof.
  revert i. induction l as [|x t IH]; intros i; simpl; [constructor|].
  case_decide; [apply sublist_cons | apply sublist_skip]; apply IH.
Qed.

Lemma keep_firsts_key_elem (l0 : list A) : ∀ l i, drop i l0 = l → ∀ k,
  k ∈ key <$> keep_firsts key l0 i l ↔ k ∈ key <$> l ∧ k ∉ key <$> take i l0.
Proof.
  induction l as [|x t IH]; intros i Hd k; cbn [keep_firsts].
  - rewrite fmap_nil, elem_of_nil. tauto.
  - destruct (take_S_drop _ _ _ _ Hd) as [_ Hd'].
    pose proof (keys_take_S l0 i x t k Hd) as HS.
    specialize (IH (S i) Hd' k).
    case_decide as Hin; rewrite ?fmap_cons, ?elem_of_cons, IH, HS, ?elem_of_cons.
    + split; [tauto|]. intros [[->|?] ?]; [done|]. split; [done|]. by intros [?| ->].
    + destruct (decide (k = key x)) as [->|]; tauto.
Qed.

Lemma keep_firsts_NoDup (l0 : list A) : ∀ l i, drop i l0 = l →
  NoDup (key <$> keep_firsts key l0 i l).
Proof.
  induction l as [|x t IH]; intros i Hd; simpl; [constructor|].
  destruct (take_S_drop _ _ _ _ Hd) as [_ Hd'].
  case_decide as Hin; [by apply IH|].
  rewrite fmap_cons. constructor; [|by apply IH].
  rewrite (keep_firsts_key_elem l0 t (S i) Hd'), (keys_take_S l0 i x t _ Hd). tauto.
Qed.

Lemma keep_firsts_id (l0 : list A) : ∀ l i, NoDup (key <$> l0) → drop i l0 = l →
  keep_firsts key l0 i l = l.
Proof.
  induction l as [|x t IH]; intros i Hnd Hd; simpl; [done|].
  destruct (take_S_drop _ _ _ _ Hd) as [_ Hd'].
  rewrite decide_False; [f_equal; by apply IH|].
  rewrite <- (take_drop i l0), Hd, fmap_app, fmap_cons in Hnd.
  apply NoDup_app in Hnd as (_ & Hnd & _). intros Hin. apply (Hnd _ Hin). left.
Qed.

Lemma first_occurrences_NoDup l : NoDup (key <$> first_occurrences key l).
Proof. by apply keep_firsts_NoDup. Qed.

Lemma first_occurrences_key_elem l k :
  k ∈ key <$> first_occurrences key l ↔ k ∈ key <$> l.
Proof.
  unfold first_occurrences. rewrite keep_firsts_key_elem by done.
  simpl. rewrite elem_of_nil. tauto.
Qed.

Lemma first_occurrences_sublist l : sublist (first_occurrences key l) l.
Proof. apply keep_firsts_sublist. Qed.

Lemma first_occurrences_id l : NoDup (key <$> l) → first_occurrences key l = l.
Proof. intros. by apply keep_firsts_id. Qed.

Lemma first_occurrences_idemp l :
  first_occurrences key (first_occurrences key l) = first_occurrences key l.
Proof. apply first_occurrences_id, first_occurrences_NoDup. Qed.

End first_occurrences_facts.

Section dedup_facts.

Lemma dedup_fold_spec l0 : ∀ l i (u : gmap string bool) r,
  drop i l0 = l →
  (∀ x, is_Some (u !! x) ↔ x ∈ id <$> take i l0) →
  (foldl Deep.dedup_step (u, r) l).2 = r ++ keep_firsts id l0 i l.
Proof.
  induction l as [|x t IH]; intros i u r Hd Hu; simpl.
  - by rewrite app_nil_r.
  - destruct (take_S_drop _ _ _ _ Hd) as [_ Hd'].
    pose proof (keys_take_S id l0 i x t) as HS.
    unfold Deep.dedup_step at 2; simpl.
    destruct (u !! x) as [b|] eqn:Hx.
    + rewrite decide_True by (apply Hu; eauto).
      apply IH; [done|]. intros y. rewrite (HS y Hd), <- Hu.
      split; [tauto|]. intros [?| ->]; [done|]. eauto.
    + rewrite decide_False by (rewrite <- Hu, Hx; by intros [? ?]).
      rewrite (IH (S i)); [by rewrite <- app_assoc|done|].
      intros y. rewrite (HS y Hd), <- Hu. simpl.
      destruct (decide (x = y)) as [->|Hne].
      * rewrite lookup_insert_eq. split; eauto.
      * rewrite lookup_insert_ne by done. split; [tauto|]. intros [?|?]; [done|congruence].
Qed.

Lemma deduplicateProxies_first_occurrences l :
  Deep.deduplicateProxies l = first_occurrences id l.
Proof.
  unfold Deep.deduplicateProxies, first_occurrences.
  rewrite (dedup_fold_spec l l 0 ∅ []); [done|done|].
  intros x. simpl. rewrite lookup_empty, elem_of_nil. split; [by intros [? ?]|done].
Qed.

Lemma remove_fold_spec l0 : ∀ l i (seen : gmap string bool) r,
  drop i l0 = l →
  (∀ k, default false (seen !! k) = true ↔ k ∈ Part001.Full <$> take i l0) →
  (foldl Part001.remove_step (seen, r) l).2 = r ++ keep_firsts Part001.Full l0 i l.
Proof.
  induction l as [|x t IH]; intros i seen r Hd Hs; simpl.
  - by rewrite app_nil_r.
  - destruct (take_S_drop _ _ _ _ Hd) as [_ Hd'].
    pose proof (keys_take_S Part001.Full l0 i x t) as HS.
    unfold Part001.remove_step at 2; simpl.
    destruct (default false (seen !! Part001.Full x)) eqn:Hx; simpl.
    + rewrite decide_True by by apply Hs.
      apply IH; [done|]. intros k. rewrite (HS k Hd), <- Hs.
      split; [tauto|]. by intros [?| ->].
    + rewrite decide_False by (rewrite <- Hs, Hx; done).
      rewrite (IH (S i)); [by rewrite <- app_assoc|done|].
      intros k. rewrite (HS k Hd), <- Hs.
      destruct (decide (Part001.Full x = k)) as [<-|Hne].
      * rewrite lookup_insert_eq. simpl. tauto.
      * rewrite lookup_insert_ne by done. split; [tauto|]. intros [?|?]; [done|congruence].
Qed.

Lemma removeDuplicateProxies_first_occurrences l :
  Part001.removeDuplicateProxies l = first_occurrences Part001.Full l.
Proof.
  unfold Part001.removeDuplicateProxies, first_occurrences.
  rewrite (remove_fold_spec l l 0 ∅ []); [done|done|].
  intros k. simpl. rewrite lookup_empty, elem_of_nil. simpl. split; [done|tauto].
Qed.

Lemma deduplicateProxies_NoDup l : NoDup (Deep.deduplicateProxies l).
Proof.
  rewrite deduplicateProxies_first_occurrences.
  pose proof (first_occurrences_NoDup id l) as Hnd. by rewrite list_fmap_id in Hnd.
Qed.

Lemma removeDuplicateProxies_NoDup l :
  NoDup (Part001.Full <$> Part001.removeDuplicateProxies l).
Proof.
  rewrite removeDuplicateProxies_first_occurrences. apply first_occurrences_NoDup.
Qed.

Lemma filter_all {A} (P : A → Prop) `{!∀ x, Decision (P x)} (l : list A) :
  Forall P l → filter P l = l.
Proof.
  induction 1 as [|x l Hx _ IH]; [done|]. by rewrite filter_cons_True, IH.
Qed.

Lemma gated_fold l : ∀ st,
  foldl Part001a.dedup_step st l
  = foldl Deep.dedup_step st (filter (λ p, Part001a.well_split p) l).
Proof.
  induction l as [|x l IH]; intros st; [done|].
  rewrite filter_cons. simpl. rewrite IH.
  unfold Part001a.dedup_step at 1, Part001a.well_split.
  by destruct (Part001a.split_len x =? 2).
Qed.

Lemma gated_dedup_first_occurrences l :
  Part001a.deduplicateProxies l
  = first_occurrences id (filter (λ p, Part001a.well_split p) l).
Proof.
  unfold Part001a.deduplicateProxies. rewrite gated_fold.
  apply deduplicateProxies_first_occurrences.
Qed.

Lemma gated_dedup_facts l :
  NoDup (Part001a.deduplicateProxies l) ∧
  (∀ x, x ∈ Part001a.deduplicateProxies l ↔ x ∈ l ∧ Part001a.well_split x = true) ∧
  Part001a.deduplicateProxies (Part001a.deduplicateProxies l)
  = Part001a.deduplicateProxies l.
Proof.
  rewrite !gated_dedup_first_occurrences.
  set (k := filter (λ p, Part001a.well_split p) l).
  pose proof (first_occurrences_NoDup id k) as Hnd. rewrite list_fmap_id in Hnd.
  assert (∀ x, x ∈ first_occurrences id k ↔ x ∈ l ∧ Part001a.well_split x = true) as Hel.
  { intros x. pose proof (first_occurrences_key_elem id k x) as Hk.
    rewrite !list_fmap_id in Hk. rewrite Hk. unfold k.
    rewrite list_elem_of_filter, Is_true_true. tauto. }
  split_and!; [done|done|].
  rewrite filter_all.
  - apply first_occurrences_idemp.
  - apply Forall_forall. intros x Hx. apply Is_true_true. by apply Hel.
Qed.

End dedup_facts.

(** ** Lists updated in place *)
Section insert_filter.
Context {A : Type} (P : A → Prop) `{!∀ x, Decision (P x)}.

Lemma insert_middle (l : list A) i x y :
  l !! i = Some x →
  ∃ l1 l2, l = l1 ++ x :: l2 ∧ <[i:=y]> l = l1 ++ y :: l2.
Proof.
  intros Hi. exists (take i l), (drop (S i) l). split.
  - by rewrite take_drop_middle.
  - apply insert_take_drop. by eapply lookup_lt_Some.
Qed.

Lemma filter_insert_enter (l : list A) i x y :
  l !! i = Some x → ¬ P x → P y → filter P (<[i:=y]> l) ≡ₚ y :: filter P l.
Proof.
  intros Hi Hx Hy. destruct (insert_middle l i x y Hi) as (l1 & l2 & -> & ->).
  rewrite !filter_app, !filter_cons.
  rewrite decide_True, decide_False by done. by rewrite Permutation_middle.
Qed.

Lemma filter_insert_leave (l : list A) i x y :
  l !! i = Some x → P x → ¬ P y → filter P l ≡ₚ x :: filter P (<[i:=y]> l).
Proof.
  intros Hi Hx Hy. destruct (insert_middle l i x y Hi) as (l1 & l2 & -> & ->).
  rewrite !filter_app, !filter_cons.
  rewrite decide_True, decide_False by done. by rewrite Permutation_middle.
Qed.

Lemma filter_insert_same (l : list A) i x y :
  l !! i = Some x → (P x ↔ P y) →
  length (filter P (<[i:=y]> l)) = length (filter P l).
Proof.
  intros Hi Hxy. destruct (insert_middle l i x y Hi) as (l1 & l2 & -> & ->).
  rewrite !filter_app, !filter_cons, !length_app.
  destruct (decide (P x)) as [Hx|Hx].
  - by rewrite decide_True by tauto.
  - by rewrite decide_False by tauto.
Qed.

Lemma filter_insert_out (l : list A) i x y :
  l !! i = Some x → ¬ P x → ¬ P y → filter P (<[i:=y]> l) = filter P l.
Proof.
  intros Hi Hx Hy. destruct (insert_middle l i x y Hi) as (l1 & l2 & -> & ->).
  rewrite !filter_app, !filter_cons.
  by rewrite !decide_False by done.
Qed.

End insert_filter.

Lemma length_filter_impl {A} (P Q : A → Prop) `{!∀ x, Decision (P x)}
    `{!∀ x, Decision (Q x)} (l : list A) :
  (∀ x, P x → Q x) → length (filter P l) ≤ length (filter Q l).
Proof.
  intros HPQ. induction l as [|x l IH]; [done|].
  rewrite !filter_cons. destruct (decide (P x)) as [HP|HP].
  - rewrite decide_True by auto. simpl. lia.
  - case_decide; simpl; lia.
Qed.

Lemma fst_insert_same {A B} (l : list (A * B)) i a b b' :
  l !! i = Some (a, b) → (<[i := (a, b')]> l).*1 = l.*1.
Proof.
  intros Hi. rewrite list_fmap_insert. apply list_insert_id.
  by rewrite list_lookup_fmap, Hi.
Qed.

(** Side conditions on the program point of one goroutine or worker. *)
Ltac pool_side :=
  simpl; first [ done | by intros [] | by intros [? ?] | by intros ? | naive_solver ].

(** ** deep.go: the pool of [checkProxiesConcurrently] *)
Section deep_pool.
Variable cap : nat.
Variable proxies : list string.

Lemma deep_inv_init : Deep.inv cap proxies (Deep.init proxies).
Proof.
  split; simpl.
  - rewrite <- list_fmap_compose. apply list_fmap_id.
  - induction proxies as [|p l IH]; [done|]. simpl in *.
    by rewrite filter_cons_False by (by intros []).
  - lia.
  - unfold Deep.verdict_of; simpl.
    induction proxies as [|p l IH]; [done|]. simpl. by rewrite filter_cons_False.
Qed.

Lemma deep_inv_step s s' :
  Deep.inv cap proxies s → Deep.step cap s s' → Deep.inv cap proxies s'.
Proof.
  intros [Ha Hs Hc Hg] Hstep. unfold Deep.verdict_of in Hg.
  destruct Hstep as [s i p Hi Hlt | s i p net Hi | s i p alive Hi Hpos | s i p alive Hi];
    split; unfold Deep.verdict_of; simpl;
    try (by rewrite (fst_insert_same _ _ _ _ _ Hi)); try lia; try done.
  - rewrite (filter_insert_enter _ _ _ _ _ Hi) by pool_side. simpl. by rewrite Hs.
  - by rewrite (filter_insert_out _ _ _ _ _ Hi) by pool_side.
  - by rewrite (filter_insert_same _ _ _ _ _ Hi) by pool_side.
  - by rewrite (filter_insert_out _ _ _ _ _ Hi) by pool_side.
  - rewrite Hs, (filter_insert_leave (λ g, Deep.holds_slot g) _ _ _
                   (p, Deep.GReleased alive) Hi) by pool_side.
    done.
  - by rewrite (filter_insert_out _ _ _ _ _ Hi) by pool_side.
  - by rewrite (filter_insert_same _ _ _ _ _ Hi) by pool_side.
  - destruct alive.
    + rewrite (filter_insert_enter _ _ _ _ _ Hi) by pool_side. simpl.
      by rewrite <- Hg, <- Permutation_cons_append.
    + by rewrite (filter_insert_out _ _ _ _ _ Hi) by pool_side.
Qed.

Lemma deep_inv_reachable s :
  rtc (Deep.step cap) (Deep.init proxies) s → Deep.inv cap proxies s.
Proof.
  intros Hr. apply rtc_nsteps in Hr as [n Hr]. revert s Hr.
  induction n as [|n IH]; intros s Hr.
  - inversion Hr; subst. apply deep_inv_init.
  - apply nsteps_inv_r in Hr as (s0 & Hr & Hstep).
    eapply deep_inv_step; [by apply IH|done].
Qed.

Lemma deep_checking_le_sem s :
  Deep.inv cap proxies s → Deep.checking s ≤ cap.
Proof.
  intros [_ Hs Hc _]. etrans; [|exact Hc]. rewrite Hs.
  apply length_filter_impl. intros [p g]; simpl. unfold Deep.holds_slot; simpl.
  by intros ->.
Qed.

End deep_pool.

Section deep_runs.
Variable cap : nat.

Lemma insert_at_middle {A} (l1 l2 : list A) x y :
  <[length l1 := y]> (l1 ++ x :: l2) = l1 ++ y :: l2.
Proof. rewrite insert_app_r_alt by lia. by rewrite Nat.sub_diag. Qed.

(** One goroutine run from its start to its return while the others wait. *)
Lemma deep_run_one net l1 l2 p good :
  0 < cap →
  rtc (Deep.step cap)
    (Deep.mkPool (l1 ++ (p, Deep.GStart) :: l2) 0 good)
    (Deep.mkPool (l1 ++ (p, Deep.GDone (Deep.checkProxy net p)) :: l2) 0
       (if Deep.checkProxy net p then good ++ [p] else good)).
Proof.
  intros Hcap.
  eapply rtc_l.
  { eapply (Deep.step_acquire cap _ (length l1) p); simpl;
      [by apply list_lookup_middle|lia]. }
  simpl. rewrite insert_at_middle.
  eapply rtc_l.
  { eapply (Deep.step_check cap _ (length l1) p net); simpl.
    by apply list_lookup_middle. }
  simpl. rewrite insert_at_middle.
  eapply rtc_l.
  { eapply (Deep.step_release cap _ (length l1) p); simpl;
      [by apply list_lookup_middle|lia]. }
  simpl. rewrite insert_at_middle.
  eapply rtc_l; [|apply rtc_refl].
  pose proof (Deep.step_record cap
    (Deep.mkPool (l1 ++ (p, Deep.GReleased (Deep.checkProxy net p)) :: l2) 0 good)
    (length l1) p (Deep.checkProxy net p)) as Hstep.
  simpl in Hstep. rewrite insert_at_middle in Hstep. apply Hstep.
  by apply list_lookup_middle.
Qed.

Lemma deep_run_rest net : ∀ l2 l1 good,
  0 < cap →
  rtc (Deep.step cap)
    (Deep.mkPool (l1 ++ map (λ p, (p, Deep.GStart)) l2) 0 good)
    (Deep.mkPool (l1 ++ map (λ p, (p, Deep.GDone (Deep.checkProxy net p))) l2) 0
       (good ++ filter (λ p, Deep.checkProxy net p) l2)).
Proof.
  induction l2 as [|p l2 IH]; intros l1 good Hcap; simpl.
  - rewrite filter_nil, !app_nil_r. apply rtc_refl.
  - etrans; [by apply (deep_run_one net)|].
    rewrite !(cons_middle _ l1). rewrite !app_assoc.
    etrans; [by apply IH|]. rewrite filter_cons.
    destruct (Deep.checkProxy net p); simpl.
    + rewrite <- (app_assoc good). apply rtc_refl.
    + apply rtc_refl.
Qed.

(** The sequential schedule: the checker returns, and returns the
    proxies that [checkProxy] accepts, in order. *)
Lemma deep_run_sequential net proxies :
  0 < cap →
  rtc (Deep.step cap) (Deep.init proxies) (Deep.sequential_final net proxies)
  ∧ Deep.finished (Deep.sequential_final net proxies).
Proof.
  intros Hcap. split.
  - apply (deep_run_rest net proxies [] [] Hcap).
  - unfold Deep.finished, Deep.sequential_final; simpl. apply forallb_forall. intros g Hg.
    apply in_map_iff in Hg as (p & <- & _). done.
Qed.

End deep_runs.

Lemma deep_run_default net proxies :
  Deep.run proxies (Deep.sequential_final net proxies).
Proof. apply deep_run_sequential. unfold Deep.maxConcurrentChecks. lia. Qed.

(** What a finished pool of deep.go looks like. *)
Lemma deep_finished_verdicts s :
  Deep.finished s → ∀ g, g ∈ Deep.gor s → ∃ alive, g.2 = Deep.GDone alive.
Proof.
  intros Hf g Hg. unfold Deep.finished in Hf.
  rewrite forallb_forall in Hf. apply list_elem_of_In, Hf in Hg.
  unfold Deep.is_done in Hg. destruct (g.2); try done. eauto.
Qed.

Lemma deep_finished_count s :
  Deep.finished s →
  length (Deep.verdict_of true s) + length (Deep.verdict_of false s)
  = length (Deep.gor s).
Proof.
  unfold Deep.finished, Deep.verdict_of. rewrite !length_fmap.
  induction (Deep.gor s) as [|[p g] l IH]; [done|]. simpl.
  intros [Hd Hl]%andb_prop. specialize (IH Hl). rewrite !filter_cons. simpl.
  destruct g as [| | | |[]]; try done;
    repeat (first [rewrite decide_True by done | rewrite decide_False by done]);
    simpl; lia.
Qed.

Lemma deep_verdicts_disjoint s :
  NoDup (Deep.gor s).*1 →
  ∀ x, x ∈ Deep.verdict_of true s → x ∉ Deep.verdict_of false s.
Proof.
  intros Hnd x. unfold Deep.verdict_of.
  rewrite !list_elem_of_fmap. intros ([p g] & -> & Hin) ([q h] & Heq & Hin').
  simpl in Heq. subst q.
  apply list_elem_of_filter in Hin as [Hg Hin].
  apply list_elem_of_filter in Hin' as [Hh Hin']. simpl in *. subst.
  apply list_elem_of_lookup in Hin as [i Hi], Hin' as [j Hj].
  assert (i = j) as ->.
  { eapply (NoDup_lookup _ i j p Hnd); rewrite list_lookup_fmap.
    - by rewrite Hi.
    - by rewrite Hj. }
  congruence.
Qed.

(** ** part_001: the pool of [validateProxies] *)
Section checker_pool.
Variable maxWorkers : nat.
Variable proxies : list Part001.Proxy.

Lemma elem_of_insert_inv {A} (l : list A) i x y z :
  l !! i = Some x → z ∈ <[i:=y]> l → z = y ∨ z ∈ l.
Proof.
  intros Hi. destruct (insert_middle l i x y Hi) as (l1 & l2 & -> & ->).
  rewrite !elem_of_app, !elem_of_cons. tauto.
Qed.

Lemma bind_insert {A B} (f : A → list B) (l : list A) i x y :
  l !! i = Some x →
  f x ++ (<[i:=y]> l ≫= f) ≡ₚ f y ++ (l ≫= f).
Proof.
  intros Hi. destruct (insert_middle l i x y Hi) as (l1 & l2 & -> & ->).
  rewrite !bind_app, !bind_cons. solve_Permutation.
Qed.

Lemma bind_replicate_idle n :
  replicate n Part001.WIdle ≫= Part001.in_flight = [].
Proof. induction n as [|n IH]; [done|]. cbn [replicate]. by rewrite bind_cons, IH. Qed.

Lemma checker_inv_init :
  Part001.inv maxWorkers proxies (Part001.init maxWorkers proxies).
Proof.
  split; unfold Part001.init;
    cbn [Part001.validProxies Part001.invalidProxies Part001.workers
         Part001.jobs Part001.tosend Part001.closed Part001.jobs_cap]; try done.
  - by rewrite bind_replicate_idle.
  - intros Hin. apply elem_of_replicate in Hin as [? _]. done.
  - by rewrite length_replicate.
Qed.

Lemma checker_inv_step s s' :
  Part001.inv maxWorkers proxies s → Part001.step s s' →
  Part001.inv maxWorkers proxies s'.
Proof.
  intros [Hall Hcl Hex Hw Hcap] Hstep.
  destruct Hstep as [s p rest Hts Hlt | s Hts Hc | s i p rest Hi Hj
                    | s i Hi Hj Hc | s i p net Hi | s i p ok Hi];
    split; simpl; rewrite ?length_insert; try done.
  - rewrite <- Hall, Hts. solve_Permutation.
  - intros Hc. specialize (Hcl Hc). congruence.
  - intros Hin. destruct (Hex Hin) as [_ Hc]. specialize (Hcl Hc). congruence.
  - rewrite Hts, length_app in *. simpl in *. lia.
  - intros Hin. by destruct (Hex Hin).
  - rewrite <- Hall, Hj.
    pose proof (bind_insert Part001.in_flight _ _ _ (Part001.WChecking p) Hi) as Hb.
    simpl in Hb. rewrite Hb. solve_Permutation.
  - intros Hin. apply (elem_of_insert_inv _ _ _ _ _ Hi) in Hin as [?|Hin]; [done|].
    destruct (Hex Hin) as [Hn _]. congruence.
  - rewrite Hj in Hcap. simpl in *. lia.
  - rewrite <- Hall.
    pose proof (bind_insert Part001.in_flight _ _ _ Part001.WExited Hi) as Hb.
    simpl in Hb. by rewrite Hb.
  - rewrite <- Hall.
    pose proof (bind_insert Part001.in_flight _ _ _
                  (Part001.WChecked p (Part001.checkProxy net p)) Hi) as Hb.
    simpl in Hb. apply Permutation_cons_inv in Hb. by rewrite Hb.
  - intros Hin. apply (elem_of_insert_inv _ _ _ _ _ Hi) in Hin as [?|Hin]; [done|].
    by apply Hex.
  - rewrite <- Hall.
    pose proof (bind_insert Part001.in_flight _ _ _ Part001.WIdle Hi) as Hb.
    simpl in Hb. rewrite <- Hb. destruct ok; solve_Permutation.
  - intros Hin. apply (elem_of_insert_inv _ _ _ _ _ Hi) in Hin as [?|Hin]; [done|].
    by apply Hex.
Qed.

Lemma checker_inv_reachable s :
  rtc Part001.step (Part001.init maxWorkers proxies) s →
  Part001.inv maxWorkers proxies s.
Proof.
  intros Hr. apply rtc_nsteps in Hr as [n Hr]. revert s Hr.
  induction n as [|n IH]; intros s Hr.
  - inversion Hr; subst. apply checker_inv_init.
  - apply nsteps_inv_r in Hr as (s0 & Hr & Hstep).
    eapply checker_inv_step; [by apply IH|done].
Qed.

Lemma checker_checking_le s :
  Part001.inv maxWorkers proxies s → Part001.checking s ≤ maxWorkers.
Proof.
  intros [_ _ _ Hw _]. rewrite <- Hw. apply length_filter.
Qed.

(** At the return of [validateProxies] every candidate has its verdict. *)
Lemma checker_finished_all s :
  0 < maxWorkers →
  Part001.inv maxWorkers proxies s → Part001.finished s →
  Part001.validProxies s ++ Part001.invalidProxies s ≡ₚ proxies.
Proof.
  intros Hpos [Hall Hcl Hex Hw _] (Hts & Hc & Hf).
  destruct (Part001.workers s) as [|w ws] eqn:Hws; [simpl in Hw; lia|].
  assert (w = Part001.WExited) as -> by by inversion Hf.
  destruct Hex as [Hj _]; [left|].
  rewrite <- Hall, Hj, Hts, !app_nil_r.
  assert ((Part001.WExited :: ws) ≫= Part001.in_flight = []) as ->.
  { clear -Hf. induction Hf as [|x l -> _ IH]; [done|]. by rewrite bind_cons, IH. }
  by rewrite app_nil_r.
Qed.

End checker_pool.

Section checker_runs.
Import Part001.
Variable net : Net.

Lemma checker_run_sends cap ws v iv : ∀ ts js,
  length js + length ts ≤ cap →
  rtc step (mkPool ts js cap false ws v iv) (mkPool [] (js ++ ts) cap false ws v iv).
Proof.
  induction ts as [|p ts IH]; intros js Hlen; simpl in *.
  - rewrite app_nil_r. apply rtc_refl.
  - eapply rtc_l.
    { eapply (step_send _ p ts); simpl; [done|lia]. }
    simpl. rewrite (cons_middle p js ts), app_assoc. apply IH.
    rewrite length_app. simpl. lia.
Qed.

(** The first worker takes every job in turn. *)
Lemma checker_run_jobs cap ws : ∀ js v iv,
  rtc step (mkPool [] js cap true (WIdle :: ws) v iv)
    (mkPool [] [] cap true (WIdle :: ws)
       (v ++ filter (λ p, checkProxy net p) js)
       (iv ++ filter (λ p, negb (checkProxy net p)) js)).
Proof.
  induction js as [|p js IH]; intros v iv.
  - rewrite !filter_nil, !app_nil_r. apply rtc_refl.
  - eapply rtc_l.
    { by eapply (step_recv _ 0 p js). }
    simpl. eapply rtc_l.
    { by eapply (step_check _ 0 p net). }
    simpl. eapply rtc_l.
    { by eapply (step_record _ 0 p (checkProxy net p)). }
    simpl. rewrite !filter_cons.
    destruct (checkProxy net p); simpl.
    + specialize (IH (v ++ [p]) iv). by rewrite <- app_assoc in IH.
    + specialize (IH v (iv ++ [p])). by rewrite <- app_assoc in IH.
Qed.

Lemma checker_run_exits cap v iv : ∀ m k,
  rtc step
    (mkPool [] [] cap true (replicate k WExited ++ replicate m WIdle) v iv)
    (mkPool [] [] cap true (replicate (k + m) WExited) v iv).
Proof.
  induction m as [|m IH]; intros k; simpl.
  - rewrite app_nil_r, Nat.add_0_r. apply rtc_refl.
  - eapply rtc_l.
    { eapply (step_exit _ k); simpl; [|done|done].
      apply list_lookup_middle. by rewrite length_replicate. }
    simpl.
    replace (<[k:=WExited]> (replicate k WExited ++ WIdle :: replicate m WIdle))
      with (replicate (S k) WExited ++ replicate m WIdle).
    + replace (k + S m) with (S k + m) by lia. apply IH.
    + rewrite replicate_S_end, <- app_assoc.
      rewrite insert_app_r_alt by (rewrite length_replicate; lia).
      by rewrite length_replicate, Nat.sub_diag.
Qed.

(** The schedule in which one worker does all the work: the pool
    returns, with the verdicts of [checkProxy] in order. *)
Lemma checker_run_sequential W proxies :
  0 < W → run W proxies (sequential_final net W proxies).
Proof.
  intros HW. split.
  - unfold init. destruct W as [|W]; [lia|].
    etrans; [apply checker_run_sends; simpl; lia|]. simpl.
    eapply rtc_l; [by apply step_close|]. simpl.
    etrans; [apply checker_run_jobs|]. simpl.
    apply (checker_run_exits _ _ _ (S W) 0).
  - unfold finished; simpl. split_and!; [done|done|].
    apply Forall_forall. by intros w [-> _]%elem_of_replicate.
Qed.

End checker_runs.

(** ** part_000: the workers of [main] *)
Lemma streaming_workers_fixed sources s :
  rtc Part000.step (Part000.init sources) s →
  length (Part000.workers s) = Part000.workerCount.
Proof.
  intros Hr. apply rtc_nsteps in Hr as [n Hr]. revert s Hr.
  induction n as [|n IH]; intros s Hr.
  - inversion Hr; subst. apply length_replicate.
  - apply nsteps_inv_r in Hr as (s0 & Hr & Hstep). specialize (IH _ Hr).
    destruct Hstep; simpl; by rewrite ?length_insert.
Qed.

(** ** Counting successful probes *)
Lemma count_from (l : list bool) (a : Z) :
  foldl (λ n (b : bool), if b then (n + 1)%Z else n) a l = (a + count_true l)%Z.
Proof.
  unfold count_true. revert a. induction l as [|b l IH]; intros a; simpl; [lia|].
  rewrite (IH (if b then _ else _)), (IH (if b then (0 + 1)%Z else 0%Z)).
  destruct b; lia.
Qed.

Lemma count_true_cons (b : bool) (l : list bool) :
  count_true (b :: l) = ((if b then 1 else 0) + count_true l)%Z.
Proof.
  unfold count_true at 1. simpl. rewrite count_from. by destruct b.
Qed.

Lemma foldl_count {A} (f : A → bool) (l : list A) (a : Z) :
  foldl (λ n t, if f t then (n + 1)%Z else n) a l = (a + count_true (map f l))%Z.
Proof.
  revert a. induction l as [|t l IH]; intros a; simpl.
  - unfold count_true. simpl. lia.
  - rewrite IH, count_true_cons. destruct (f t); lia.
Qed.

Lemma count_true_perm (l l' : list bool) : l ≡ₚ l' → count_true l = count_true l'.
Proof.
  induction 1 as [|b l l' _ IH|b b' l|l l' l'' _ IH _ IH']; rewrite ?count_true_cons; lia.
Qed.

Lemma deep_checkProxy_count net proxy :
  Deep.checkProxy net proxy = true
  ↔ (2 ≤ count_true (Deep.probe_outcomes net proxy))%Z.
Proof.
  unfold Deep.checkProxy, Deep.probe_outcomes.
  destruct (url_Parse net _) as [proxyURL|].
  - rewrite foldl_count, Z.leb_le. lia.
  - split; [done|]. by compute.
Qed.

Lemma checker_checkProxy_count net proxy :
  Part001.checkProxy net proxy = true
  ↔ (1 ≤ count_true (Part001.probe_outcomes net proxy))%Z.
Proof.
  unfold Part001.checkProxy, Part001.probe_outcomes.
  rewrite foldl_count, Z.leb_le. lia.
Qed.

Lemma legacy_checkProxy_count net proxy :
  Part001a.checkProxy net proxy = true
  ↔ (2 ≤ count_true (Part001a.probe_outcomes net proxy))%Z.
Proof.
  unfold Part001a.checkProxy, Part001a.probe_outcomes.
  destruct (url_Parse net _) as [proxyURL|]; [|by split].
  simpl. rewrite !count_true_cons.
  destruct (Part001a.checkWithClient _ _ "http://example.com"),
    (Part001a.checkWithClient _ _ "http://httpbin.org/ip"); by compute.
Qed.

(** * The claims *)

(** C1. Quorum rule. A candidate is classified Live exactly when the
    number of successful probes among the K targets reaches the threshold
    T. In deep.go K = 3 and T = 2: [checkProxy] returns true iff at least
    two of the probes it issues succeed, so the outcomes
    {success, success, failure}, in any order, give Live and
    {success, failure, failure} give Dead. In the [ProxyChecker] program
    K = 2 and T = 1; in the first program of part_001 K = 2 and T = 2. *)
Theorem quorum_rule :
  (length Deep.targets = 3 ∧
   ∀ net proxy,
     (Deep.checkProxy net proxy = true
      ↔ (2 ≤ count_true (Deep.probe_outcomes net proxy))%Z) ∧
     (Deep.probe_outcomes net proxy ≡ₚ [true; true; false] →
      Deep.checkProxy net proxy = true) ∧
     (Deep.probe_outcomes net proxy ≡ₚ [true; false; false] →
      Deep.checkProxy net proxy = false)) ∧
  (length Part001.testURLs = 2 ∧
   ∀ net proxy,
     length (Part001.probe_outcomes net proxy) = 2 ∧
     (Part001.checkProxy net proxy = true
      ↔ (1 ≤ count_true (Part001.probe_outcomes net proxy))%Z)) ∧
  (∀ net proxy,
     Part001a.checkProxy net proxy = true
     ↔ (2 ≤ count_true (Part001a.probe_outcomes net proxy))%Z).
Proof.
  split_and!; try done.
  - intros net proxy.
    pose proof (deep_checkProxy_count net proxy) as Hq. split_and!; [done| |].
    + intros Hp%count_true_perm. apply Hq. rewrite Hp. by compute.
    + intros Hp%count_true_perm. apply not_true_is_false. rewrite Hq, Hp. by compute.
  - intros net proxy. split; [done|apply checker_checkProxy_count].
  - apply legacy_checkProxy_count.
Qed.

Lemma quorum_rule_witness :
  Deep.probe_outcomes
    (mkNet (λ u, Some u) (λ u, Some u)
       (λ _ req, if decide (req = "http://google.com") then None
                 else Some (mkResponse 200 (Some ""))))
    "1.2.3.4:8080" ≡ₚ [true; true; false]
  ∧ Deep.checkProxy
      (mkNet (λ u, Some u) (λ u, Some u)
         (λ _ req, if decide (req = "http://google.com") then None
                   else Some (mkResponse 200 (Some ""))))
      "1.2.3.4:8080" = true.
Proof.
  assert (Deep.probe_outcomes
    (mkNet (λ u, Some u) (λ u, Some u)
       (λ _ req, if decide (req = "http://google.com") then None
                 else Some (mkResponse 200 (Some ""))))
    "1.2.3.4:8080" ≡ₚ [true; true; false]) as Hp by (vm_compute; reflexivity).
  split; [exact Hp|].
  exact (proj1 (proj2 (proj2 (proj1 quorum_rule) _ _)) Hp).
Defined.

(** C3. Deduplication admits each address exactly once. For every input
    list, the output of [deduplicateProxies] (deep.go) has no duplicates,
    contains exactly the addresses of the input, is the input itself when
    the input has no duplicates, and so is unchanged by a second pass;
    the same holds of [removeDuplicateProxies] for the address [Full] of
    each proxy. The first program of part_001 puts a gate before the
    test (exactly one colon): there the output has no duplicates,
    contains exactly the addresses of the input that pass the gate, and
    is unchanged by a second pass. *)
Theorem dedup_admits_once :
  (∀ l : list string,
     NoDup (Deep.deduplicateProxies l) ∧
     (∀ x, x ∈ Deep.deduplicateProxies l ↔ x ∈ l) ∧
     (NoDup l → Deep.deduplicateProxies l = l) ∧
     Deep.deduplicateProxies (Deep.deduplicateProxies l) = Deep.deduplicateProxies l) ∧
  (∀ l : list Part001.Proxy,
     NoDup (Part001.Full <$> Part001.removeDuplicateProxies l) ∧
     (∀ a, a ∈ Part001.Full <$> Part001.removeDuplicateProxies l
           ↔ a ∈ Part001.Full <$> l) ∧
     (∀ p, p ∈ Part001.removeDuplicateProxies l → p ∈ l) ∧
     (NoDup (Part001.Full <$> l) → Part001.removeDuplicateProxies l = l) ∧
     Part001.removeDuplicateProxies (Part001.removeDuplicateProxies l)
     = Part001.removeDuplicateProxies l) ∧
  (∀ l : list string,
     NoDup (Part001a.deduplicateProxies l) ∧
     (∀ x, x ∈ Part001a.deduplicateProxies l
           ↔ x ∈ l ∧ Part001a.well_split x = true) ∧
     Part001a.deduplicateProxies (Part001a.deduplicateProxies l)
     = Part001a.deduplicateProxies l).
Proof.
  split_and!; intros l; [| |apply gated_dedup_facts].
  - rewrite !deduplicateProxies_first_occurrences.
    pose proof (first_occurrences_NoDup id l) as Hnd.
    pose proof (first_occurrences_key_elem id l) as Hel.
    pose proof (first_occurrences_id id l) as Hid.
    pose proof (first_occurrences_idemp id l) as Hii.
    rewrite list_fmap_id in Hnd, Hid. setoid_rewrite list_fmap_id in Hel.
    done.
  - rewrite !removeDuplicateProxies_first_occurrences.
    split_and!.
    + apply first_occurrences_NoDup.
    + apply first_occurrences_key_elem.
    + intros p. apply sublist_subseteq, first_occurrences_sublist.
    + apply first_occurrences_id.
    + apply first_occurrences_idemp.
Qed.

Lemma dedup_admits_once_witness :
  NoDup ["1.2.3.4:8080"; "5.6.7.8:3128"]
  ∧ Deep.deduplicateProxies ["1.2.3.4:8080"; "5.6.7.8:3128"]
    = ["1.2.3.4:8080"; "5.6.7.8:3128"].
Proof.
  assert (NoDup ["1.2.3.4:8080"; "5.6.7.8:3128"]) as Hnd
    by (apply (bool_decide_unpack _); vm_compute; exact I).
  split; [exact Hnd|].
  exact (proj1 (proj2 (proj2 (proj1 dedup_admits_once _))) Hnd).
Defined.

(** C9. With an empty live set, [saveProxiesToFile] of deep.go asks the
    operating system for nothing: whatever the answer to a write would
    be, every file, [good_proxies.txt] included, is as it was (absent if
    it was absent), and one line is logged. So every run of [main] whose
    checker returns no live proxy ends with the files it started with. *)
Theorem save_empty_live_set_no_write :
  (∀ os_WriteFile filename (fs : FS) (lg : list event),
     Deep.saveProxiesToFile os_WriteFile [] filename (fs, lg)
     = (fs, lg ++ [Println "Tidak ada proxy yang valid untuk disimpan"])
     ∧ (Deep.saveProxiesToFile os_WriteFile [] Deep.goodProxiesFile (fs, lg)).1
         !! Deep.goodProxiesFile = fs !! Deep.goodProxiesFile) ∧
  (∀ fetched os_WriteFile fs out,
     Deep.main fetched os_WriteFile fs out → live out = [] → files out = fs).
Proof.
  split; [done|].
  intros fetched os fs out Hm Hlive.
  destruct Hm as [Hlen | s all Hlen Hrun w]; [done|].
  simpl in *. subst w. by rewrite Hlive.
Qed.

Lemma save_empty_live_set_no_write_witness :
  Deep.main [Some ["5.6.7.8:3128"]] (λ _ _, WriteErr "disk full" (Some ""))
    {[ Deep.goodProxiesFile := "9.9.9.9:80" ]}
    (mkOutcome 0
       [Println "Memulai proses scraping proxy...";
        Printf "Berhasil mengumpulkan %d proxy\n" [ArgI 1];
        Println "Memulai pengecekan proxy...";
        Printf "\nSelesai! Proxy baik: %d, Proxy mati: %d\n" [ArgI 0; ArgI 1];
        Println "Tidak ada proxy yang valid untuk disimpan";
        Printf "Proxy yang baik disimpan di %s\n" [ArgS Deep.goodProxiesFile]]
       {[ Deep.goodProxiesFile := "9.9.9.9:80" ]}
       ["5.6.7.8:3128"] [])
  ∧ ({[ Deep.goodProxiesFile := "9.9.9.9:80" ]} : FS) !! Deep.goodProxiesFile
    = Some "9.9.9.9:80".
Proof.
  assert (Deep.main [Some ["5.6.7.8:3128"]] (λ _ _, WriteErr "disk full" (Some ""))
    {[ Deep.goodProxiesFile := "9.9.9.9:80" ]}
    (mkOutcome 0
       [Println "Memulai proses scraping proxy...";
        Printf "Berhasil mengumpulkan %d proxy\n" [ArgI 1];
        Println "Memulai pengecekan proxy...";
        Printf "\nSelesai! Proxy baik: %d, Proxy mati: %d\n" [ArgI 0; ArgI 1];
        Println "Tidak ada proxy yang valid untuk disimpan";
        Printf "Proxy yang baik disimpan di %s\n" [ArgS Deep.goodProxiesFile]]
       {[ Deep.goodProxiesFile := "9.9.9.9:80" ]}
       ["5.6.7.8:3128"] [])) as Hm.
  { assert (Deep.scrapeAllProxies [Some ["5.6.7.8:3128"]] = ["5.6.7.8:3128"]) as Hall
      by (vm_compute; reflexivity).
    pose proof (Deep.main_checked [Some ["5.6.7.8:3128"]]
                  (λ _ _, WriteErr "disk full" (Some ""))
                  {[ Deep.goodProxiesFile := "9.9.9.9:80" ]}
                  (Deep.sequential_final net_one ["5.6.7.8:3128"])) as Hmain.
    cbv zeta in Hmain. rewrite Hall in Hmain.
    apply Hmain; [done|]. apply deep_run_default. }
  split; [exact Hm|].
  rewrite <- (proj2 save_empty_live_set_no_write _ _ _ _ Hm eq_refl) at 1.
  reflexivity.
Defined.

(** ** Runs of the two checkers *)
Lemma deep_run_partition proxies s :
  NoDup proxies → Deep.run proxies s →
  (Deep.gor s).*1 = proxies ∧
  (∀ g, g ∈ Deep.gor s → ∃ alive, g.2 = Deep.GDone alive) ∧
  Deep.goodProxies s ≡ₚ Deep.verdict_of true s ∧
  (Z.of_nat (length proxies) - Z.of_nat (length (Deep.goodProxies s)))%Z
    = Z.of_nat (length (Deep.verdict_of false s)) ∧
  length (Deep.goodProxies s) + length (Deep.verdict_of false s) = length proxies ∧
  (∀ x, x ∈ Deep.goodProxies s → x ∉ Deep.verdict_of false s).
Proof.
  intros Hnd [Hr Hf].
  destruct (deep_inv_reachable _ _ _ Hr) as [Ha _ _ Hg].
  pose proof (deep_finished_count s Hf) as Hc.
  assert (length (Deep.gor s) = length proxies) as Hl
    by by rewrite <- Ha, length_fmap.
  rewrite <- Hg, Hl in Hc.
  split_and!; [done|by apply deep_finished_verdicts|done|lia|done|].
  intros x Hx. rewrite Hg in Hx. revert x Hx. apply deep_verdicts_disjoint.
  by rewrite Ha.
Qed.

Lemma checker_run_partition W proxies s :
  0 < W → NoDup (Part001.Full <$> proxies) → Part001.run W proxies s →
  Part001.validProxies s ++ Part001.invalidProxies s ≡ₚ proxies ∧
  length (Part001.validProxies s) + length (Part001.invalidProxies s)
    = length proxies ∧
  (∀ p q, p ∈ Part001.validProxies s → q ∈ Part001.invalidProxies s →
          Part001.Full p ≠ Part001.Full q).
Proof.
  intros HW Hnd [Hr Hf].
  pose proof (checker_finished_all W proxies s HW
                (checker_inv_reachable _ _ _ Hr) Hf) as Hall.
  split_and!; [done|by rewrite <- Hall, length_app|].
  rewrite <- Hall, fmap_app in Hnd. apply NoDup_app in Hnd as (_ & Hd & _).
  intros p q Hp Hq Heq. apply (Hd (Part001.Full p)).
  - by apply list_elem_of_fmap_2.
  - rewrite Heq. by apply list_elem_of_fmap_2.
Qed.

(** C2. Partition completeness. In every complete run of the checker on
    the deduplicated candidates, each candidate gets exactly one verdict
    and Live and Dead partition the candidates. deep.go: every goroutine
    ends with one verdict, [goodProxies] holds exactly the candidates
    judged alive, the dead count that [main] prints,
    [len(allProxies) - len(goodProxies)], is the number of candidates
    judged dead, the two counts add up to the number of candidates, and
    no address is in both. [ProxyChecker]: [validProxies] followed by
    [invalidProxies] is a rearrangement of the candidates, the two
    lengths add up, and no address is in both. *)
Theorem partition_complete :
  (∀ raw s,
     Deep.run (Deep.deduplicateProxies raw) s →
     (Deep.gor s).*1 = Deep.deduplicateProxies raw ∧
     (∀ g, g ∈ Deep.gor s → ∃ alive, g.2 = Deep.GDone alive) ∧
     Deep.goodProxies s ≡ₚ Deep.verdict_of true s ∧
     (Z.of_nat (length (Deep.deduplicateProxies raw))
      - Z.of_nat (length (Deep.goodProxies s)))%Z
       = Z.of_nat (length (Deep.verdict_of false s)) ∧
     length (Deep.goodProxies s) + length (Deep.verdict_of false s)
       = length (Deep.deduplicateProxies raw) ∧
     (∀ x, x ∈ Deep.goodProxies s → x ∉ Deep.verdict_of false s)) ∧
  (∀ raw s,
     Part001.run Part001.maxWorkers (Part001.removeDuplicateProxies raw) s →
     Part001.validProxies s ++ Part001.invalidProxies s
       ≡ₚ Part001.removeDuplicateProxies raw ∧
     length (Part001.validProxies s) + length (Part001.invalidProxies s)
       = length (Part001.removeDuplicateProxies raw) ∧
     (∀ p q, p ∈ Part001.validProxies s → q ∈ Part001.invalidProxies s →
             Part001.Full p ≠ Part001.Full q)).
Proof.
  split; intros raw s Hrun.
  - apply deep_run_partition; [|done]. apply deduplicateProxies_NoDup.
  - apply (checker_run_partition Part001.maxWorkers);
      [unfold Part001.maxWorkers; lia| |done].
    apply removeDuplicateProxies_NoDup.
Qed.

Lemma partition_complete_witness :
  (Deep.run (Deep.deduplicateProxies ["1.2.3.4:8080"; "1.2.3.4:8080"; "5.6.7.8:3128"])
     (Deep.sequential_final net_one
        (Deep.deduplicateProxies ["1.2.3.4:8080"; "1.2.3.4:8080"; "5.6.7.8:3128"]))
   ∧ length (Deep.goodProxies (Deep.sequential_final net_one
        (Deep.deduplicateProxies ["1.2.3.4:8080"; "1.2.3.4:8080"; "5.6.7.8:3128"])))
     + length (Deep.verdict_of false (Deep.sequential_final net_one
        (Deep.deduplicateProxies ["1.2.3.4:8080"; "1.2.3.4:8080"; "5.6.7.8:3128"])))
     = length (Deep.deduplicateProxies ["1.2.3.4:8080"; "1.2.3.4:8080"; "5.6.7.8:3128"]))
  ∧
  (Part001.run Part001.maxWorkers
     (Part001.removeDuplicateProxies (Part001.parseProxies "1.2.3.4:8080 1.2.3.4:8080 5.6.7.8:3128"))
     (Part001.sequential_final net_one Part001.maxWorkers
        (Part001.removeDuplicateProxies
           (Part001.parseProxies "1.2.3.4:8080 1.2.3.4:8080 5.6.7.8:3128")))
   ∧ length (Part001.validProxies (Part001.sequential_final net_one Part001.maxWorkers
        (Part001.removeDuplicateProxies
           (Part001.parseProxies "1.2.3.4:8080 1.2.3.4:8080 5.6.7.8:3128"))))
     + length (Part001.invalidProxies (Part001.sequential_final net_one Part001.maxWorkers
        (Part001.removeDuplicateProxies
           (Part001.parseProxies "1.2.3.4:8080 1.2.3.4:8080 5.6.7.8:3128"))))
     = length (Part001.removeDuplicateProxies
           (Part001.parseProxies "1.2.3.4:8080 1.2.3.4:8080 5.6.7.8:3128"))).
Proof.
  split.
  - pose proof (deep_run_default net_one
      (Deep.deduplicateProxies ["1.2.3.4:8080"; "1.2.3.4:8080"; "5.6.7.8:3128"])) as Hrun.
    split; [exact Hrun|].
    exact (proj1 (proj2 (proj2 (proj2 (proj2 (proj1 partition_complete _ _ Hrun)))))).
  - assert (0 < Part001.maxWorkers) as HW by (unfold Part001.maxWorkers; lia).
    pose proof (checker_run_sequential net_one Part001.maxWorkers
      (Part001.removeDuplicateProxies
         (Part001.parseProxies "1.2.3.4:8080 1.2.3.4:8080 5.6.7.8:3128")) HW) as Hrun.
    split; [exact Hrun|].
    exact (proj1 (proj2 (proj2 partition_complete _ _ Hrun))).
Defined.

(** The scenario of the specification: two copies of 1.2.3.4:8080 and
    one 5.6.7.8:3128, the first relaying and the second not. *)
Example deep_scenario :
  Deep.goodProxies (Deep.sequential_final net_one
    (Deep.deduplicateProxies ["1.2.3.4:8080"; "1.2.3.4:8080"; "5.6.7.8:3128"]))
  = ["1.2.3.4:8080"]
  ∧ Deep.verdict_of false (Deep.sequential_final net_one
    (Deep.deduplicateProxies ["1.2.3.4:8080"; "1.2.3.4:8080"; "5.6.7.8:3128"]))
  = ["5.6.7.8:3128"].
Proof. split; vm_compute; reflexivity. Qed.

Example checker_scenario :
  Part001.validProxies (Part001.sequential_final net_one Part001.maxWorkers
    (Part001.removeDuplicateProxies
       (Part001.parseProxies "1.2.3.4:8080 1.2.3.4:8080 5.6.7.8:3128")))
  = [Part001.mkProxy "1.2.3.4" "8080" "1.2.3.4:8080"]
  ∧ Part001.invalidProxies (Part001.sequential_final net_one Part001.maxWorkers
    (Part001.removeDuplicateProxies
       (Part001.parseProxies "1.2.3.4:8080 1.2.3.4:8080 5.6.7.8:3128")))
  = [Part001.mkProxy "5.6.7.8" "3128" "5.6.7.8:3128"].
Proof. split; vm_compute; reflexivity. Qed.

(** C4. Backpressure bound. In every state that a run of the validation
    stage can reach, the number of checks in progress is at most the pool
    bound W: the capacity of the semaphore channel in deep.go (200 as
    configured), the number of workers started in part_000 (150) and in
    the [ProxyChecker] program (100 as configured). With W = 5 and 100
    pending candidates no reachable state has more than 5 checks in
    progress. *)
Theorem backpressure_bound :
  (∀ W proxies s,
     rtc (Deep.step W) (Deep.init proxies) s → Deep.checking s ≤ W) ∧
  (∀ proxies s,
     rtc (Deep.step Deep.maxConcurrentChecks) (Deep.init proxies) s →
     Deep.checking s ≤ 200) ∧
  (∀ sources s,
     rtc Part000.step (Part000.init sources) s → Part000.checking s ≤ 150) ∧
  (∀ W proxies s,
     rtc Part001.step (Part001.init W proxies) s → Part001.checking s ≤ W) ∧
  (∀ proxies s,
     rtc Part001.step (Part001.init Part001.maxWorkers proxies) s →
     Part001.checking s ≤ 100) ∧
  (∀ proxies s,
     length proxies = 100 →
     rtc (Deep.step 5) (Deep.init proxies) s → Deep.checking s ≤ 5) ∧
  (∀ proxies s,
     length proxies = 100 →
     rtc Part001.step (Part001.init 5 proxies) s → Part001.checking s ≤ 5).
Proof.
  assert (∀ W proxies s,
     rtc (Deep.step W) (Deep.init proxies) s → Deep.checking s ≤ W) as HD.
  { intros W proxies s Hr. eapply deep_checking_le_sem, deep_inv_reachable, Hr. }
  assert (∀ W proxies s,
     rtc Part001.step (Part001.init W proxies) s → Part001.checking s ≤ W) as HC.
  { intros W proxies s Hr. eapply checker_checking_le, checker_inv_reachable, Hr. }
  split_and!; [done|apply HD| |done|apply HC|intros ? ? _; apply HD|intros ? ? _; apply HC].
  intros sources s Hr. pose proof (streaming_workers_fixed sources s Hr) as Hw.
  unfold Part000.workerCount in Hw. rewrite <- Hw. apply length_filter.
Qed.

Lemma backpressure_bound_witness :
  rtc (Deep.step 5) (Deep.init (replicate 100 "1.2.3.4:8080"))
    (Deep.mkPool (<[0 := ("1.2.3.4:8080", Deep.GChecking)]>
                    (map (λ p, (p, Deep.GStart)) (replicate 100 "1.2.3.4:8080")))
                 1 [])
  ∧ Deep.checking
      (Deep.mkPool (<[0 := ("1.2.3.4:8080", Deep.GChecking)]>
                      (map (λ p, (p, Deep.GStart)) (replicate 100 "1.2.3.4:8080")))
                   1 []) ≤ 5.
Proof.
  assert (rtc (Deep.step 5) (Deep.init (replicate 100 "1.2.3.4:8080"))
    (Deep.mkPool (<[0 := ("1.2.3.4:8080", Deep.GChecking)]>
                    (map (λ p, (p, Deep.GStart)) (replicate 100 "1.2.3.4:8080")))
                 1 [])) as Hr.
  { apply rtc_once.
    apply (Deep.step_acquire 5 (Deep.init (replicate 100 "1.2.3.4:8080")) 0 "1.2.3.4:8080");
      [reflexivity|simpl; lia]. }
  split; [exact Hr|].
  exact (proj1 (proj2 (proj2 (proj2 (proj2 (proj2 backpressure_bound)))))
           (replicate 100 "1.2.3.4:8080") _ eq_refl Hr).
Defined.

(** A run of the checker of deep.go in which the second candidate is
    recorded before the first. *)
Lemma deep_run_second_first :
  Deep.run ["1.2.3.4:8080"; "5.6.7.8:3128"]
    (Deep.mkPool [("1.2.3.4:8080", Deep.GDone true); ("5.6.7.8:3128", Deep.GDone true)]
                 0 ["5.6.7.8:3128"; "1.2.3.4:8080"]).
Proof.
  assert (Deep.checkProxy net_ok "1.2.3.4:8080" = true) as E1 by (vm_compute; reflexivity).
  assert (Deep.checkProxy net_ok "5.6.7.8:3128" = true) as E2 by (vm_compute; reflexivity).
  assert (2 < Deep.maxConcurrentChecks) as Hcap by (unfold Deep.maxConcurrentChecks; lia).
  split; [|reflexivity].
  unfold Deep.init. simpl.
  eapply rtc_l.
  { apply (Deep.step_acquire _ _ 0 "1.2.3.4:8080"); [reflexivity|simpl; lia]. }
  simpl. eapply rtc_l.
  { apply (Deep.step_acquire _ _ 1 "5.6.7.8:3128"); [reflexivity|simpl; lia]. }
  simpl. eapply rtc_l.
  { apply (Deep.step_check _ _ 0 "1.2.3.4:8080" net_ok); reflexivity. }
  simpl. rewrite E1. eapply rtc_l.
  { apply (Deep.step_check _ _ 1 "5.6.7.8:3128" net_ok); reflexivity. }
  simpl. rewrite E2. eapply rtc_l.
  { apply (Deep.step_release _ _ 1 "5.6.7.8:3128" true); [reflexivity|simpl; lia]. }
  simpl. eapply rtc_l.
  { apply (Deep.step_record _ _ 1 "5.6.7.8:3128" true); reflexivity. }
  simpl. eapply rtc_l.
  { apply (Deep.step_release _ _ 0 "1.2.3.4:8080" true); [reflexivity|simpl; lia]. }
  simpl. eapply rtc_l.
  { apply (Deep.step_record _ _ 0 "1.2.3.4:8080" true); reflexivity. }
  simpl. apply rtc_refl.
Qed.

(** C10, as stated, fails on its last clause: the live list that deep.go
    persists need not follow discovery order. From the input
    1.2.3.4:8080, 1.2.3.4:8080, 5.6.7.8:3128 a run returns the live list
    5.6.7.8:3128, 1.2.3.4:8080, which is no subsequence of the input. *)
Lemma live_list_order_counterexample :
  ∃ s,
    Deep.run (Deep.deduplicateProxies ["1.2.3.4:8080"; "1.2.3.4:8080"; "5.6.7.8:3128"]) s
    ∧ Deep.goodProxies s = ["5.6.7.8:3128"; "1.2.3.4:8080"]
    ∧ ¬ sublist (Deep.goodProxies s) ["1.2.3.4:8080"; "1.2.3.4:8080"; "5.6.7.8:3128"].
Proof.
  eexists. split_and!.
  - replace (Deep.deduplicateProxies ["1.2.3.4:8080"; "1.2.3.4:8080"; "5.6.7.8:3128"])
      with ["1.2.3.4:8080"; "5.6.7.8:3128"] by (vm_compute; reflexivity).
    apply deep_run_second_first.
  - reflexivity.
  - simpl. intros (k1 & k2 & Heq & Hs)%sublist_cons_l.
    destruct k1 as [|? [|? [|? k1]]]; simplify_eq/=.
    + by apply sublist_nil_r in Hs.
    + by destruct k1.
Qed.

(** C10, amended. For every input list, the deduplication returns
    exactly the first occurrence of each distinct address, in input
    order: the element at position [i] is kept iff its address does not
    occur before position [i], and the output is a subsequence of the
    input. The live list of a complete run of deep.go holds each
    candidate judged alive exactly once, each of them an address of the
    input, in the order in which the verdicts were recorded. *)
Theorem dedup_first_occurrences :
  (∀ l : list string,
     Deep.deduplicateProxies l = first_occurrences id l
     ∧ sublist (Deep.deduplicateProxies l) l) ∧
  (∀ l : list Part001.Proxy,
     Part001.removeDuplicateProxies l = first_occurrences Part001.Full l
     ∧ sublist (Part001.removeDuplicateProxies l) l) ∧
  (∀ raw s,
     Deep.run (Deep.deduplicateProxies raw) s →
     Deep.goodProxies s ≡ₚ Deep.verdict_of true s
     ∧ NoDup (Deep.goodProxies s)
     ∧ ∀ x, x ∈ Deep.goodProxies s → x ∈ raw).
Proof.
  split_and!.
  - intros l. rewrite deduplicateProxies_first_occurrences.
    split; [done|apply first_occurrences_sublist].
  - intros l. rewrite removeDuplicateProxies_first_occurrences.
    split; [done|apply first_occurrences_sublist].
  - intros raw s Hrun.
    pose proof (deduplicateProxies_NoDup raw) as Hnd.
    destruct (deep_run_partition _ _ Hnd Hrun) as (Ha & _ & Hg & _).
    assert (sublist (Deep.verdict_of true s) (Deep.deduplicateProxies raw)) as Hsub.
    { rewrite <- Ha. unfold Deep.verdict_of. apply fmap_sublist, sublist_filter. }
    split_and!; [done| |].
    + rewrite Hg. by eapply sublist_NoDup.
    + intros x Hx. rewrite Hg in Hx. eapply elem_of_sublist in Hx; [|exact Hsub].
      rewrite deduplicateProxies_first_occurrences in Hx.
      eapply elem_of_sublist; [exact Hx|apply first_occurrences_sublist].
Qed.

Lemma dedup_first_occurrences_witness :
  Deep.run (Deep.deduplicateProxies ["1.2.3.4:8080"; "1.2.3.4:8080"; "5.6.7.8:3128"])
    (Deep.sequential_final net_ok
       (Deep.deduplicateProxies ["1.2.3.4:8080"; "1.2.3.4:8080"; "5.6.7.8:3128"]))
  ∧ NoDup (Deep.goodProxies (Deep.sequential_final net_ok
       (Deep.deduplicateProxies ["1.2.3.4:8080"; "1.2.3.4:8080"; "5.6.7.8:3128"]))).
Proof.
  pose proof (deep_run_default net_ok
    (Deep.deduplicateProxies ["1.2.3.4:8080"; "1.2.3.4:8080"; "5.6.7.8:3128"])) as Hrun.
  split; [exact Hrun|].
  exact (proj1 (proj2 (proj2 (proj2 dedup_first_occurrences) _ _ Hrun))).
Defined.

(** ** The harvester of the [ProxyChecker] program *)
Lemma fetch_cases client_Get :
  let f i := Part001.transient_failure (client_Get i) in
  Part001.attempts (Part001.fetch client_Get)
    = (if f 0%Z then if f 1%Z then 3 else 2 else 1)
  ∧ Part001.sleeps (Part001.fetch client_Get)
    = (if f 0%Z then
         if f 1%Z then
           if f 2%Z then [1000000000; 2000000000; 3000000000]%Z
           else [1000000000; 2000000000]%Z
         else [1000000000]%Z
       else []).
Proof.
  unfold Part001.fetch, Part001.transient_failure. cbn [Part001.fetch_loop].
  change (0 + 1 + 1)%Z with 2%Z. change (0 + 1)%Z with 1%Z.
  destruct (client_Get 0%Z) as [r0|m0 [r0|]];
    try destruct (StatusCode r0 =? 200)%Z; simpl; try done;
    destruct (client_Get 1%Z) as [r1|m1 [r1|]];
    try destruct (StatusCode r1 =? 200)%Z; simpl; try done;
    destruct (client_Get 2%Z) as [r2|m2 [r2|]];
    try destruct (StatusCode r2 =? 200)%Z; simpl; done.
Qed.

Lemma fetch_third_attempt client_Get body :
  Part001.transient_failure (client_Get 0%Z) = true →
  Part001.transient_failure (client_Get 1%Z) = true →
  client_Get 2%Z = Part001.GetOk (mkResponse 200 (Some body)) →
  Part001.scrapeProxiesFromURL client_Get = Part001.Scraped (Part001.parseProxies body).
Proof.
  unfold Part001.scrapeProxiesFromURL, Part001.fetch, Part001.transient_failure.
  intros H0 H1 H2. cbn [Part001.fetch_loop].
  change (0 + 1 + 1)%Z with 2%Z. change (0 + 1)%Z with 1%Z. rewrite H2.
  destruct (client_Get 0%Z) as [r0|m0 [r0|]];
    try (apply negb_true_iff in H0; rewrite H0); simpl;
    destruct (client_Get 1%Z) as [r1|m1 [r1|]];
    try (apply negb_true_iff in H1; rewrite H1); simpl; done.
Qed.

(** C5. Retry with backoff. [scrapeProxiesFromURL] calls [client.Get] at
    least once and at most 3 times, once more after each attempt that
    ends in an error or in a status other than 200; the delays it sleeps
    are 1s, 2s, 3s in that order, so each is at least the previous one;
    and a source that fails on attempts 1 and 2 and answers 200 with some
    body on attempt 3 yields the candidates of a source that answers 200
    with that body at once. *)
Theorem retry_backoff :
  ∀ client_Get,
    (1 ≤ Part001.attempts (Part001.fetch client_Get) ≤ 3) ∧
    Part001.attempts (Part001.fetch client_Get)
      = (if Part001.transient_failure (client_Get 0%Z)
         then if Part001.transient_failure (client_Get 1%Z) then 3 else 2
         else 1) ∧
    Sorted Z.le (Part001.sleeps (Part001.fetch client_Get)) ∧
    Part001.sleeps (Part001.fetch client_Get)
      `prefix_of` [(1 * Part001.time_Second)%Z; (2 * Part001.time_Second)%Z;
                   (3 * Part001.time_Second)%Z] ∧
    (∀ body,
       Part001.transient_failure (client_Get 0%Z) = true →
       Part001.transient_failure (client_Get 1%Z) = true →
       client_Get 2%Z = Part001.GetOk (mkResponse 200 (Some body)) →
       Part001.attempts (Part001.fetch client_Get) = 3
       ∧ Part001.scrapeProxiesFromURL client_Get
         = Part001.Scraped (Part001.parseProxies body)
       ∧ Part001.scrapeProxiesFromURL client_Get
         = Part001.scrapeProxiesFromURL
             (λ _, Part001.GetOk (mkResponse 200 (Some body)))).
Proof.
  intros client_Get. destruct (fetch_cases client_Get) as [Ha Hs]. cbv beta zeta in Ha, Hs.
  split_and!.
  - rewrite Ha. repeat case_match; lia.
  - rewrite Ha. repeat case_match; lia.
  - done.
  - rewrite Hs. repeat case_match; repeat constructor; lia.
  - rewrite Hs. unfold Part001.time_Second. simpl.
    repeat case_match;
      first [ by exists [] | by exists [3000000000%Z]
            | by exists [2000000000%Z; 3000000000%Z] | apply prefix_nil ].
  - intros body H0 H1 H2. split_and!.
    + by rewrite Ha, H0, H1.
    + by apply fetch_third_attempt.
    + by rewrite (fetch_third_attempt client_Get body).
Qed.

Lemma retry_backoff_witness :
  Part001.scrapeProxiesFromURL
    (λ i, if (i =? 2)%Z
          then Part001.GetOk (mkResponse 200 (Some "1.2.3.4:8080 5.6.7.8:3128"))
          else if (i =? 0)%Z then Part001.GetErr "connection refused" None
          else Part001.GetOk (mkResponse 503 (Some "")))
  = Part001.Scraped (Part001.parseProxies "1.2.3.4:8080 5.6.7.8:3128").
Proof.
  exact (proj1 (proj2 (proj2 (proj2 (proj2 (proj2 (retry_backoff
    (λ i, if (i =? 2)%Z
          then Part001.GetOk (mkResponse 200 (Some "1.2.3.4:8080 5.6.7.8:3128"))
          else if (i =? 0)%Z then Part001.GetErr "connection refused" None
          else Part001.GetOk (mkResponse 503 (Some ""))))))) _
    eq_refl eq_refl eq_refl))).
Defined.

(** ** The parser of the [ProxyChecker] program *)
Lemma parse_fold_valid ms : ∀ acc,
  Forall Part001.well_formed acc → Forall Part001.well_formed (foldl Part001.parse_step acc ms).
Proof.
  induction ms as [|m ms IH]; intros acc Hacc; simpl; [done|].
  apply IH. unfold Part001.parse_step. repeat case_match; try done.
  apply Forall_app. split; [done|]. constructor; [|constructor].
  match goal with H : _ && _ = true |- _ => apply andb_prop in H as [? ?] end.
  by split_and!.
Qed.

Lemma parseProxies_valid content :
  Forall Part001.well_formed (Part001.parseProxies content).
Proof. apply parse_fold_valid. constructor. Qed.

(** C6, where the code falls short of the claim. The claim holds of the
    host part and of the shape of the port (1 to 5 digits), see the
    lemma on [well_formed] above, but not of the range of the port:
    [isValidPort], headed by the comment that the port must be between 1
    and 65535, only checks the length and the digits. The token
    1.2.3.4:99999 is emitted with port 99999, and 1.2.3.4:0 with port 0. *)
Theorem parseProxies_port_out_of_range :
  Part001.parseProxies "1.2.3.4:99999"
    = [Part001.mkProxy "1.2.3.4" "99999" "1.2.3.4:99999"]
  ∧ Part001.isValidPort "99999" = true
  ∧ Part001.port_number "99999" = 99999%Z
  ∧ ¬ (1 ≤ Part001.port_number "99999" ≤ 65535)%Z
  ∧ Part001.parseProxies "1.2.3.4:0" = [Part001.mkProxy "1.2.3.4" "0" "1.2.3.4:0"]
  ∧ ¬ (1 ≤ Part001.port_number "0" ≤ 65535)%Z.
Proof.
  split_and!; try (vm_compute; reflexivity).
  - vm_compute. intros [_ H]. by apply H.
  - vm_compute. intros [H _]. by apply H.
Qed.

(** ** Empty harvests *)
Lemma first_occurrences_nil {A} (key : A → string) (l : list A) :
  first_occurrences key l = [] ↔ l = [].
Proof.
  split; [|by intros ->]. intros Hnil. destruct l as [|x l]; [done|].
  pose proof (first_occurrences_key_elem key (x :: l) (key x)) as [_ Hin].
  rewrite Hnil in Hin. apply elem_of_nil in Hin; [done|]. rewrite fmap_cons. left.
Qed.

Lemma deep_gather_nil fetched : ∀ acc,
  foldl Deep.gather acc fetched = []
  ↔ acc = [] ∧ forallb Deep.no_candidates fetched = true.
Proof.
  induction fetched as [|r l IH]; intros acc; simpl; [tauto|].
  rewrite IH. destruct r as [[|p ps]|]; simpl.
  - by rewrite app_nil_r.
  - split; [|by intros [_ ?]]. intros [H _]. by destruct acc.
  - done.
Qed.

Lemma deep_harvest_empty fetched :
  length (Deep.scrapeAllProxies fetched) = 0
  ↔ forallb Deep.no_candidates fetched = true.
Proof.
  unfold Deep.scrapeAllProxies.
  rewrite length_zero_iff_nil, deduplicateProxies_first_occurrences,
    first_occurrences_nil, deep_gather_nil. tauto.
Qed.

Lemma checker_gather_nil scraped : ∀ acc,
  foldl Part001.gather acc scraped = []
  ↔ acc = [] ∧ forallb Part001.no_candidates scraped = true.
Proof.
  induction scraped as [|r l IH]; intros acc; simpl; [tauto|].
  rewrite IH. destruct r as [[|p ps]| | | |]; simpl; try done.
  - by rewrite app_nil_r.
  - split; [|by intros [_ ?]]. intros [H _]. by destruct acc.
Qed.

Lemma checker_harvest_empty scraped :
  length (Part001.scrapeAllProxies scraped) = 0
  ↔ forallb Part001.no_candidates scraped = true.
Proof.
  unfold Part001.scrapeAllProxies.
  rewrite length_zero_iff_nil, removeDuplicateProxies_first_occurrences,
    first_occurrences_nil, checker_gather_nil. tauto.
Qed.

(** C7, as stated, fails on the completion status of deep.go: with no
    candidate from any source its [main] logs the empty result and
    returns, so the process ends with status 0. *)
Lemma deep_empty_harvest_exit_zero :
  (∃ out,
     Deep.main [None; None; None; None; Some []] (λ _ _, WriteOk) ∅ out
     ∧ exit_status out = 0%Z)
  ∧ ¬ (∀ fetched os fs out,
         forallb Deep.no_candidates fetched = true →
         Deep.main fetched os fs out → exit_status out ≠ 0%Z).
Proof.
  assert (Deep.main [None; None; None; None; Some []] (λ _ _, WriteOk) ∅
            (mkOutcome 0 [Println "Memulai proses scraping proxy...";
                          Printf "Berhasil mengumpulkan %d proxy\n" [ArgI 0];
                          Println "Tidak ada proxy yang ditemukan, keluar..."]
                       ∅ [] [])) as Hm.
  { apply Deep.main_empty. by apply deep_harvest_empty. }
  split.
  - eexists. split; [exact Hm|done].
  - intros H. refine (H _ _ _ _ _ Hm _); reflexivity.
Qed.

(** C7, amended. If no source yields a candidate, [main] stops before
    validating or writing anything and says so: the [ProxyChecker]
    program through [log.Fatal], with status 1; deep.go through a log
    line and a plain return, with status 0. In the [ProxyChecker]
    program this is the only way to a non-zero status; deep.go never ends
    with one. *)
Theorem empty_harvest_stops :
  (∀ fetched os fs,
     forallb Deep.no_candidates fetched = true →
     (∃ out, Deep.main fetched os fs out) ∧
     ∀ out, Deep.main fetched os fs out →
       exit_status out = 0%Z ∧ validated out = [] ∧ live out = [] ∧ files out = fs
       ∧ last (log out) = Some (Println "Tidak ada proxy yang ditemukan, keluar...")) ∧
  (∀ scraped os fs,
     forallb Part001.no_candidates scraped = true →
     (∃ out, Part001.main scraped os fs out) ∧
     ∀ out, Part001.main scraped os fs out →
       exit_status out = 1%Z ∧ validated out = [] ∧ live out = [] ∧ files out = fs
       ∧ log out = [Fatal "❌ Tidak ada proxy yang berhasil di-scrape"]) ∧
  (∀ scraped os fs out,
     Part001.main scraped os fs out →
     (exit_status out ≠ 0%Z ↔ forallb Part001.no_candidates scraped = true)) ∧
  (∀ fetched os fs out, Deep.main fetched os fs out → exit_status out = 0%Z).
Proof.
  split_and!.
  - intros fetched os fs Hnone. apply deep_harvest_empty in Hnone. split.
    + eexists. by apply Deep.main_empty.
    + intros out Hm. destruct Hm as [Hlen | s all Hlen]; [done|].
      by subst all.
  - intros scraped os fs Hnone. apply checker_harvest_empty in Hnone. split.
    + eexists. by apply Part001.main_fatal.
    + intros out Hm. destruct Hm as [Hlen | s all Hlen]; [done|].
      by subst all.
  - intros scraped os fs out Hm. rewrite <- checker_harvest_empty.
    destruct Hm as [Hlen | s all Hlen]; simpl; [done|].
    subst all. split; [done|]. intros Hz. by rewrite Hz in Hlen.
  - intros fetched os fs out Hm. by destruct Hm.
Qed.

Lemma empty_harvest_stops_witness :
  forallb Part001.no_candidates
    [Part001.ErrFetch "timeout"; Part001.ErrHTTP 503; Part001.Scraped []] = true
  ∧ Part001.main
      [Part001.ErrFetch "timeout"; Part001.ErrHTTP 503; Part001.Scraped []]
      (Part001.mkOS (λ _, None) (λ _ _, Part001.Stored)) ∅
      (mkOutcome 1 [Fatal "❌ Tidak ada proxy yang berhasil di-scrape"] ∅ [] [])
  ∧ exit_status (mkOutcome (A := Part001.Proxy) 1
                   [Fatal "❌ Tidak ada proxy yang berhasil di-scrape"] ∅ [] []) = 1%Z.
Proof.
  assert (forallb Part001.no_candidates
            [Part001.ErrFetch "timeout"; Part001.ErrHTTP 503; Part001.Scraped []] = true)
    as Hnone by reflexivity.
  assert (Part001.main
            [Part001.ErrFetch "timeout"; Part001.ErrHTTP 503; Part001.Scraped []]
            (Part001.mkOS (λ _, None) (λ _ _, Part001.Stored)) ∅
            (mkOutcome 1 [Fatal "❌ Tidak ada proxy yang berhasil di-scrape"] ∅ [] []))
    as Hm.
  { apply Part001.main_fatal. by apply checker_harvest_empty. }
  split_and!; [exact Hnone|exact Hm|].
  exact (proj1 (proj2 (proj1 (proj2 empty_harvest_stops) _ _ _ Hnone) _ Hm)).
Defined.

(** ** Single probes *)
Lemma deep_probe_rule net client url :
  Deep.checkWithClient net client url = true
  ↔ ∃ req resp, http_NewRequest net url = Some req ∧ client req = Some resp
                ∧ (200 ≤ StatusCode resp < 400)%Z.
Proof.
  unfold Deep.checkWithClient.
  destruct (http_NewRequest net url) as [req|];
    [|split; [done|by intros (? & ? & ? & _)]].
  destruct (client req) as [resp|] eqn:Hc.
  - rewrite andb_true_iff, Z.leb_le, Z.ltb_lt. split.
    + intros [? ?]. exists req, resp. repeat split; try done; lia.
    + intros (? & ? & ? & ? & ?). simplify_eq. lia.
  - split; [done|]. intros (? & ? & ? & ? & _). simplify_eq.
Qed.

Lemma streaming_probe_rule net proxyAddr :
  Part000.probe net proxyAddr = true
  ↔ ∃ proxyURL resp,
      url_Parse net ("http://" +:+ proxyAddr) = Some proxyURL
      ∧ Part000.client_Get net proxyURL Part000.checkURL = Some resp
      ∧ StatusCode resp = 200%Z.
Proof.
  unfold Part000.probe.
  destruct (url_Parse net _) as [proxyURL|];
    [|split; [done|by intros (? & ? & ? & _)]].
  destruct (Part000.client_Get net proxyURL _) as [resp|] eqn:Hc.
  - rewrite Z.eqb_eq. split.
    + intros ?. by exists proxyURL, resp.
    + intros (? & ? & ? & ? & ?). by simplify_eq.
  - split; [done|]. intros (? & ? & ? & ? & _). simplify_eq.
Qed.

Lemma checker_probe_rule net proxy testURL :
  Part001.testProxyConnection net proxy testURL = true
  ↔ ∃ req resp body,
      http_NewRequest net testURL = Some req
      ∧ client_Do net ("http://" +:+ Part001.Full proxy) req = Some resp
      ∧ StatusCode resp = 200%Z
      ∧ Body resp = Some body
      ∧ 0 < String.length (Part001.strings_TrimSpace body).
Proof.
  unfold Part001.testProxyConnection.
  destruct (http_NewRequest net testURL) as [req|];
    [|split; [done|by intros (? & ? & ? & ? & _)]].
  destruct (client_Do net _ req) as [resp|] eqn:Hc;
    [|split; [done|]; intros (? & ? & ? & ? & ? & _); simplify_eq].
  destruct (StatusCode resp =? 200)%Z eqn:Hs; simpl.
  - apply Z.eqb_eq in Hs. destruct (Body resp) as [body|] eqn:Hb.
    + rewrite Nat.ltb_lt. split.
      * intros ?. by exists req, resp, body.
      * intros (? & ? & ? & ? & ? & ? & ? & ?). by simplify_eq.
    + split; [done|]. intros (? & ? & ? & ? & ? & ? & ? & ?). simplify_eq.
  - apply Z.eqb_neq in Hs. split; [done|].
    intros (? & ? & ? & ? & ? & ? & _). by simplify_eq.
Qed.

(** C8, as stated, fails: a response with an informational status is
    below 400, yet [checkWithClient] of deep.go counts it as a failure;
    and a body of white space only is not empty, yet
    [testProxyConnection] counts it as a failure. *)
Lemma probe_rule_counterexample :
  (Deep.checkWithClient net_ok (λ _, Some (mkResponse 101 (Some ""))) "http://example.com"
     = false
   ∧ spec_probe_success false (Some (mkResponse 101 (Some ""))) = true)
  ∧
  (Part001.testProxyConnection
     (mkNet (λ u, Some u) (λ u, Some u) (λ _ _, Some (mkResponse 200 (Some "  "))))
     (Part001.mkProxy "1.2.3.4" "8080" "1.2.3.4:8080") "http://icanhazip.com" = false
   ∧ spec_probe_success true (Some (mkResponse 200 (Some "  "))) = true).
Proof. split; split; vm_compute; reflexivity. Qed.

(** C8, amended. A single probe counts as a success iff it gets a
    response and: in deep.go, the status is at least 200 and below 400;
    in part_000, the status is 200; in the [ProxyChecker] program, the
    status is 200, the body can be read and the body is not empty once
    its leading and trailing white space is removed. In all three a
    timeout or connection error, or a status of 400 or above, counts as a
    failure. *)
Theorem probe_success_rule :
  (∀ net client url,
     (Deep.checkWithClient net client url = true
      ↔ ∃ req resp, http_NewRequest net url = Some req ∧ client req = Some resp
                    ∧ (200 ≤ StatusCode resp < 400)%Z) ∧
     (∀ req, http_NewRequest net url = Some req →
        client req = None ∨ (∃ resp, client req = Some resp ∧ (400 ≤ StatusCode resp)%Z) →
        Deep.checkWithClient net client url = false)) ∧
  (∀ net proxyAddr,
     (Part000.probe net proxyAddr = true
      ↔ ∃ proxyURL resp,
          url_Parse net ("http://" +:+ proxyAddr) = Some proxyURL
          ∧ Part000.client_Get net proxyURL Part000.checkURL = Some resp
          ∧ StatusCode resp = 200%Z) ∧
     (∀ proxyURL, url_Parse net ("http://" +:+ proxyAddr) = Some proxyURL →
        Part000.client_Get net proxyURL Part000.checkURL = None
        ∨ (∃ resp, Part000.client_Get net proxyURL Part000.checkURL = Some resp
                   ∧ (400 ≤ StatusCode resp)%Z) →
        Part000.probe net proxyAddr = false)) ∧
  (∀ net proxy testURL,
     (Part001.testProxyConnection net proxy testURL = true
      ↔ ∃ req resp body,
          http_NewRequest net testURL = Some req
          ∧ client_Do net ("http://" +:+ Part001.Full proxy) req = Some resp
          ∧ StatusCode resp = 200%Z
          ∧ Body resp = Some body
          ∧ 0 < String.length (Part001.strings_TrimSpace body)) ∧
     (∀ req, http_NewRequest net testURL = Some req →
        client_Do net ("http://" +:+ Part001.Full proxy) req = None
        ∨ (∃ resp, client_Do net ("http://" +:+ Part001.Full proxy) req = Some resp
                   ∧ (400 ≤ StatusCode resp)%Z) →
        Part001.testProxyConnection net proxy testURL = false)).
Proof.
  split_and!.
  - intros net client url. split; [apply deep_probe_rule|].
    intros req Hreq Hfail. apply not_true_is_false. rewrite deep_probe_rule.
    intros (req' & resp & ? & Hc & ?). simplify_eq.
    destruct Hfail as [?|(resp' & ? & ?)]; simplify_eq. lia.
  - intros net proxyAddr. split; [apply streaming_probe_rule|].
    intros proxyURL Hp Hfail. apply not_true_is_false. rewrite streaming_probe_rule.
    intros (proxyURL' & resp & ? & Hc & ?). simplify_eq.
    destruct Hfail as [?|(resp' & ? & ?)]; simplify_eq. lia.
  - intros net proxy testURL. split; [apply checker_probe_rule|].
    intros req Hreq Hfail. apply not_true_is_false. rewrite checker_probe_rule.
    intros (req' & resp & body & ? & Hc & ? & _). simplify_eq.
    destruct Hfail as [?|(resp' & ? & ?)]; simplify_eq. lia.
Qed.

Lemma probe_success_rule_witness :
  Deep.checkWithClient net_ok (λ _, Some (mkResponse 404 (Some "not found")))
    "http://example.com" = false.
Proof.
  refine (proj2 (proj1 probe_success_rule net_ok
                   (λ _, Some (mkResponse 404 (Some "not found"))) "http://example.com")
                "http://example.com" eq_refl _).
  right. exists (mkResponse 404 (Some "not found")). split; [reflexivity|].
  simpl. lia.
Defined.

(** * Further properties of the code *)

(** ** Harvests *)
Lemma deep_gather_elem fetched : ∀ acc x,
  x ∈ foldl Deep.gather acc fetched
  ↔ x ∈ acc ∨ ∃ ps, Some ps ∈ fetched ∧ x ∈ ps.
Proof.
  induction fetched as [|r l IH]; intros acc x; simpl.
  - split; [by left|]. intros [?|(ps & Hin & _)]; [done|]. by apply elem_of_nil in Hin.
  - rewrite IH. destruct r as [ps|]; simpl.
    + rewrite elem_of_app. split.
      * intros [[?|?]|(qs & ? & ?)]; [by left| |].
        -- right. exists ps. split; [left|done].
        -- right. exists qs. split; [by right|done].
      * intros [?|(qs & Hin & ?)]; [by left; left|].
        apply elem_of_cons in Hin as [Heq|?]; [|right; by exists qs].
        left. right. congruence.
    + split.
      * intros [?|(qs & ? & ?)]; [by left|]. right. exists qs. split; [by right|done].
      * intros [?|(qs & Hin & ?)]; [by left|].
        apply elem_of_cons in Hin as [Heq|?]; [done|]. right. by exists qs.
Qed.

Lemma deep_harvest_elem fetched x :
  x ∈ Deep.scrapeAllProxies fetched ↔ ∃ ps, Some ps ∈ fetched ∧ x ∈ ps.
Proof.
  unfold Deep.scrapeAllProxies. rewrite deduplicateProxies_first_occurrences.
  pose proof (first_occurrences_key_elem id (foldl Deep.gather [] fetched) x) as Hk.
  rewrite !list_fmap_id in Hk. rewrite Hk, deep_gather_elem, elem_of_nil. tauto.
Qed.

(** X1. The harvest of deep.go is the union of the sources that
    answered: [scrapeAllProxies] returns each address that some
    successful source listed, once, and nothing else; sources that failed
    contribute nothing and take nothing away. The order in which the
    source goroutines reach the mutex only changes the order of the
    result. *)
Theorem deep_harvest_union :
  ∀ fetched,
    NoDup (Deep.scrapeAllProxies fetched) ∧
    (∀ x, x ∈ Deep.scrapeAllProxies fetched ↔ ∃ ps, Some ps ∈ fetched ∧ x ∈ ps) ∧
    (∀ fetched', fetched ≡ₚ fetched' →
       Deep.scrapeAllProxies fetched ≡ₚ Deep.scrapeAllProxies fetched').
Proof.
  intros fetched. split_and!.
  - apply deduplicateProxies_NoDup.
  - apply deep_harvest_elem.
  - intros fetched' Hp. apply NoDup_Permutation; try apply deduplicateProxies_NoDup.
    intros x. rewrite !deep_harvest_elem. by setoid_rewrite Hp.
Qed.

Lemma deep_harvest_union_witness :
  Deep.scrapeAllProxies [Some ["1.2.3.4:8080"; "5.6.7.8:3128"]; None; Some ["1.2.3.4:8080"]]
  ≡ₚ Deep.scrapeAllProxies [Some ["1.2.3.4:8080"]; Some ["1.2.3.4:8080"; "5.6.7.8:3128"]; None].
Proof.
  refine (proj2 (proj2 (deep_harvest_union _)) _ _).
  symmetry. exact (Permutation_cons_append _ _).
Defined.

(** ** Strings *)
Lemma append_nil_l (s : string) : "" +:+ s = s.
Proof. reflexivity. Qed.

Lemma append_cons (c : ascii) (s t : string) : String c s +:+ t = String c (s +:+ t).
Proof. reflexivity. Qed.

Lemma append_nil_r (s : string) : s +:+ "" = s.
Proof. induction s as [|c s IH]; [done|]. by rewrite append_cons, IH. Qed.


Lemma length_append (s t : string) :
  String.length (s +:+ t) = String.length s + String.length t.
Proof. induction s as [|c s IH]; [done|]. rewrite append_cons. simpl. by rewrite IH. Qed.

Lemma colons_append (s t : string) :
  Part001a.count_colons (s +:+ t) = Part001a.count_colons s + Part001a.count_colons t.
Proof.
  induction s as [|c s IH]; [done|]. rewrite append_cons. simpl. rewrite IH. lia.
Qed.

Lemma digit_not_colon c : Part001.isDigit c = true → Ascii.eqb c ":" = false.
Proof.
  intros Hd. destruct (Ascii.eqb_spec c ":") as [->|]; [|done]. by vm_compute in Hd.
Qed.

Lemma digits_no_colon (s : string) :
  forallb Part001.isDigit (list_ascii_of_string s) = true → Part001a.count_colons s = 0.
Proof.
  induction s as [|c s IH]; [done|]. simpl. intros [Hc Hs]%andb_prop.
  by rewrite (digit_not_colon c Hc), IH.
Qed.

Lemma parseIPv4_no_colon : ∀ s val digLen pos,
  Part001.parseIPv4 s val digLen pos = true → Part001a.count_colons s = 0.
Proof.
  induction s as [|c s IH]; intros val digLen pos; [done|]. simpl.
  destruct (Part001.isDigit c) eqn:Hd.
  - rewrite (digit_not_colon c Hd). repeat case_match; try done. apply IH.
  - destruct (Ascii.eqb_spec c ".") as [->|]; [|done].
    repeat case_match; try done. apply IH.
Qed.

(** An address [host:port] whose host has no colon has one reading. *)
Lemma host_port_inj (a a' b b' : string) :
  Part001a.count_colons a = 0 → Part001a.count_colons a' = 0 →
  a +:+ ":" +:+ b = a' +:+ ":" +:+ b' → a = a' ∧ b = b'.
Proof.
  revert a'. induction a as [|c a IH]; intros [|c' a'] Ha Ha' Heq.
  - rewrite !append_nil_l in Heq. by simplify_eq.
  - rewrite !append_cons, !append_nil_l in Heq. injection Heq as <- _.
    by vm_compute in Ha'.
  - rewrite !append_cons, !append_nil_l in Heq. injection Heq as -> _.
    by vm_compute in Ha.
  - rewrite !(append_cons _ a), !(append_cons _ a') in Heq. injection Heq as -> Heq.
    simpl in Ha, Ha'.
    destruct (IH a') as [-> ->]; [lia|lia|done|done].
Qed.

Lemma well_formed_inj (p q : Part001.Proxy) :
  Part001.well_formed p → Part001.well_formed q →
  Part001.Full p = Part001.Full q → p = q.
Proof.
  intros (Hip & Hport & Hfull) (Hiq & Hportq & Hfullq) Heq.
  rewrite Hfull, Hfullq in Heq.
  apply host_port_inj in Heq as [Hi Hp]; try by eapply parseIPv4_no_colon.
  destruct p, q; simpl in *. congruence.
Qed.

Lemma checker_gather_elem scraped : ∀ acc p,
  p ∈ foldl Part001.gather acc scraped
  ↔ p ∈ acc ∨ ∃ ps, Part001.Scraped ps ∈ scraped ∧ p ∈ ps.
Proof.
  induction scraped as [|r l IH]; intros acc p; simpl.
  - split; [by left|]. intros [?|(ps & Hin & _)]; [done|]. by apply elem_of_nil in Hin.
  - rewrite IH. split.
    + intros [Hacc|(qs & ? & ?)]; [|right; exists qs; split; [by right|done]].
      destruct r as [ps| | | |]; simpl in Hacc; try by left.
      apply elem_of_app in Hacc as [?|?]; [by left|].
      right. exists ps. split; [left|done].
    + intros [?|(qs & Hin & ?)].
      * left. destruct r; simpl; try done. apply elem_of_app. by left.
      * apply elem_of_cons in Hin as [<-|?]; [|right; by exists qs].
        left. simpl. apply elem_of_app. by right.
Qed.

Lemma scrape_well_formed g ps :
  Part001.scrapeProxiesFromURL g = Part001.Scraped ps → Forall Part001.well_formed ps.
Proof.
  unfold Part001.scrapeProxiesFromURL. intros Hs.
  repeat case_match; simplify_eq. apply parseProxies_valid.
Qed.

Lemma removeDuplicateProxies_elem l p :
  Forall Part001.well_formed l →
  p ∈ Part001.removeDuplicateProxies l ↔ p ∈ l.
Proof.
  intros Hwf. rewrite removeDuplicateProxies_first_occurrences. split.
  - apply sublist_subseteq, first_occurrences_sublist.
  - intros Hp.
    assert (Part001.Full p ∈ Part001.Full <$> first_occurrences Part001.Full l) as Hk.
    { apply first_occurrences_key_elem. by apply list_elem_of_fmap_2. }
    apply list_elem_of_fmap in Hk as (q & Heq & Hq).
    assert (q ∈ l) as Hql
      by (eapply elem_of_sublist; [exact Hq|apply first_occurrences_sublist]).
    rewrite Forall_forall in Hwf.
    by rewrite (well_formed_inj p q (Hwf _ Hp) (Hwf _ Hql) Heq).
Qed.

Lemma checker_harvest_elem gets p :
  p ∈ Part001.scrapeAllProxies (Part001.scrapeProxiesFromURL <$> gets)
  ↔ ∃ g ps, g ∈ gets ∧ Part001.scrapeProxiesFromURL g = Part001.Scraped ps ∧ p ∈ ps.
Proof.
  unfold Part001.scrapeAllProxies.
  assert (∀ q, q ∈ foldl Part001.gather [] (Part001.scrapeProxiesFromURL <$> gets)
             ↔ ∃ g ps, g ∈ gets
                 ∧ Part001.scrapeProxiesFromURL g = Part001.Scraped ps ∧ q ∈ ps) as Hg.
  { intros q. rewrite checker_gather_elem, elem_of_nil. split.
    - intros [[]|(ps & Hin & ?)]. apply list_elem_of_fmap in Hin as (g & ? & ?).
      by exists g, ps.
    - intros (g & ps & ? & Heq & ?). right. exists ps. split; [|done].
      rewrite <- Heq. by apply list_elem_of_fmap_2. }
  rewrite removeDuplicateProxies_elem; [apply Hg|].
  apply Forall_forall. intros q (g & ps & _ & Hs & Hq)%Hg.
  apply scrape_well_formed in Hs. rewrite Forall_forall in Hs. by apply Hs.
Qed.

(** X2. The harvest of the [ProxyChecker] program, from what each source
    answered to its (at most three) requests: [scrapeAllProxies] returns
    exactly the proxies parsed from the sources whose fetch succeeded,
    each address once; every one of them passed [isValidIP] and
    [isValidPort] and has [Full = IP:Port]; sources that failed are
    skipped; and the order in which the sources finish only changes the
    order of the result. *)
Theorem checker_harvest_union :
  ∀ gets,
    Forall Part001.well_formed
      (Part001.scrapeAllProxies (Part001.scrapeProxiesFromURL <$> gets)) ∧
    NoDup (Part001.Full <$>
      Part001.scrapeAllProxies (Part001.scrapeProxiesFromURL <$> gets)) ∧
    (∀ p, p ∈ Part001.scrapeAllProxies (Part001.scrapeProxiesFromURL <$> gets)
          ↔ ∃ g ps, g ∈ gets
              ∧ Part001.scrapeProxiesFromURL g = Part001.Scraped ps ∧ p ∈ ps) ∧
    (∀ gets', gets ≡ₚ gets' →
       Part001.scrapeAllProxies (Part001.scrapeProxiesFromURL <$> gets)
       ≡ₚ Part001.scrapeAllProxies (Part001.scrapeProxiesFromURL <$> gets')).
Proof.
  intros gets. split_and!.
  - apply Forall_forall. intros p (g & ps & _ & Hs & Hp)%checker_harvest_elem.
    apply scrape_well_formed in Hs. rewrite Forall_forall in Hs. by apply Hs.
  - apply removeDuplicateProxies_NoDup.
  - apply checker_harvest_elem.
  - intros gets' Hp.
    apply NoDup_Permutation;
      try (eapply NoDup_fmap_1, removeDuplicateProxies_NoDup).
    intros p. rewrite !checker_harvest_elem. by setoid_rewrite Hp.
Qed.

Lemma checker_harvest_union_witness :
  Part001.scrapeAllProxies (Part001.scrapeProxiesFromURL <$>
    [λ _, Part001.GetOk (mkResponse 200 (Some "1.2.3.4:8080 5.6.7.8:3128"));
     λ _, Part001.GetErr "timeout" None])
  ≡ₚ Part001.scrapeAllProxies (Part001.scrapeProxiesFromURL <$>
    [λ _, Part001.GetErr "timeout" None;
     λ _, Part001.GetOk (mkResponse 200 (Some "1.2.3.4:8080 5.6.7.8:3128"))]).
Proof.
  refine (proj2 (proj2 (proj2 (checker_harvest_union _))) _ _). apply perm_swap.
Defined.

(** ** The retry loop, attempt by attempt *)
Lemma fetch_loop_step g n i st :
  Part001.fetch_loop g (S n) i st
  = if Part001.transient_failure (g i)
    then Part001.fetch_loop g n (i + 1)%Z
           (Part001.mkFetch
              (match g i with Part001.GetOk r => Some r | Part001.GetErr _ r => r end)
              (match g i with Part001.GetOk _ => None | Part001.GetErr msg _ => Some msg end)
              (S (Part001.attempts st))
              (Part001.sleeps st ++ [((i + 1) * Part001.time_Second)%Z]))
    else Part001.mkFetch
           (match g i with Part001.GetOk r => Some r | Part001.GetErr _ r => r end)
           (match g i with Part001.GetOk _ => None | Part001.GetErr msg _ => Some msg end)
           (S (Part001.attempts st)) (Part001.sleeps st).
Proof.
  cbn [Part001.fetch_loop]. unfold Part001.transient_failure.
  destruct (g i) as [r|msg [r|]]; simpl; try done.
  by destruct (StatusCode r =? 200)%Z.
Qed.

Lemma scrape_accepted g k r :
  (0 ≤ k < 3)%Z →
  (∀ j, (0 ≤ j < k)%Z → Part001.transient_failure (g j) = true) →
  g k = Part001.GetOk r → StatusCode r = 200%Z →
  Part001.scrapeProxiesFromURL g
  = match Body r with
    | Some body => Part001.Scraped (Part001.parseProxies body)
    | None => Part001.ErrRead
    end
  ∧ Z.of_nat (Part001.attempts (Part001.fetch g)) = (k + 1)%Z.
Proof.
  intros Hk Hfail Hok Hst.
  assert (Part001.transient_failure (g k) = false) as Hacc.
  { rewrite Hok. simpl. by rewrite Hst. }
  unfold Part001.scrapeProxiesFromURL, Part001.fetch.
  assert (k = 0 ∨ k = 1 ∨ k = 2)%Z as [-> | [-> | ->]] by lia.
  - rewrite fetch_loop_step, Hacc, Hok. simpl. by rewrite Hst.
  - rewrite fetch_loop_step, (Hfail 0%Z) by lia.
    change (0 + 1)%Z with 1%Z. rewrite fetch_loop_step, Hacc, Hok. simpl. by rewrite Hst.
  - rewrite fetch_loop_step, (Hfail 0%Z) by lia.
    change (0 + 1)%Z with 1%Z. rewrite fetch_loop_step, (Hfail 1%Z) by lia.
    change (1 + 1)%Z with 2%Z. rewrite fetch_loop_step, Hacc, Hok. simpl. by rewrite Hst.
Qed.

Lemma scrape_exhausted g :
  Part001.transient_failure (g 0%Z) = true →
  Part001.transient_failure (g 1%Z) = true →
  Part001.transient_failure (g 2%Z) = true →
  Part001.scrapeProxiesFromURL g
  = match g 2%Z with
    | Part001.GetErr msg _ => Part001.ErrFetch msg
    | Part001.GetOk r => Part001.ErrHTTP (StatusCode r)
    end.
Proof.
  intros H0 H1 H2. unfold Part001.scrapeProxiesFromURL, Part001.fetch.
  rewrite fetch_loop_step, H0. change (0 + 1)%Z with 1%Z.
  rewrite fetch_loop_step, H1. change (1 + 1)%Z with 2%Z.
  rewrite fetch_loop_step, H2. simpl.
  destruct (g 2%Z) as [r|msg o]; simpl in *; [|done].
  apply negb_true_iff in H2. by rewrite H2.
Qed.

(** X3. What [scrapeProxiesFromURL] returns, attempt by attempt. The
    first attempt among the three that answers 200 without error decides:
    the result is the parse of its body (or the read error), and no
    request is made after it. If all three attempts fail, the error
    returned is that of the third attempt alone, its transport error or
    its status; earlier failures are not reported. In no case is the
    response dereferenced while nil. *)
Theorem scrape_attempts :
  ∀ g,
    Part001.scrapeProxiesFromURL g ≠ Part001.NilResponse ∧
    (∀ k r,
       (0 ≤ k < 3)%Z →
       (∀ j, (0 ≤ j < k)%Z → Part001.transient_failure (g j) = true) →
       g k = Part001.GetOk r → StatusCode r = 200%Z →
       Part001.scrapeProxiesFromURL g
       = match Body r with
         | Some body => Part001.Scraped (Part001.parseProxies body)
         | None => Part001.ErrRead
         end
       ∧ Z.of_nat (Part001.attempts (Part001.fetch g)) = (k + 1)%Z
       ∧ ∀ g', (∀ j, (0 ≤ j ≤ k)%Z → g' j = g j) →
               Part001.scrapeProxiesFromURL g' = Part001.scrapeProxiesFromURL g) ∧
    (Part001.transient_failure (g 0%Z) = true →
     Part001.transient_failure (g 1%Z) = true →
     Part001.transient_failure (g 2%Z) = true →
     Part001.scrapeProxiesFromURL g
     = match g 2%Z with
       | Part001.GetErr msg _ => Part001.ErrFetch msg
       | Part001.GetOk r => Part001.ErrHTTP (StatusCode r)
       end).
Proof.
  intros g. split_and!.
  - destruct (Part001.transient_failure (g 0%Z)) eqn:H0;
      [destruct (Part001.transient_failure (g 1%Z)) eqn:H1;
        [destruct (Part001.transient_failure (g 2%Z)) eqn:H2|]|].
    + rewrite scrape_exhausted by done. by destruct (g 2%Z).
    + destruct (g 2%Z) as [r|] eqn:Hg; [|done]. simpl in H2.
      apply negb_false_iff, Z.eqb_eq in H2.
      assert (∀ j, (0 ≤ j < 2)%Z → Part001.transient_failure (g j) = true) as Hf.
      { intros j Hj. assert (j = 0 ∨ j = 1)%Z as [->| ->] by lia; done. }
      destruct (scrape_accepted g 2 r ltac:(lia) Hf Hg H2) as [-> _]. by case_match.
    + destruct (g 1%Z) as [r|] eqn:Hg; [|done]. simpl in H1.
      apply negb_false_iff, Z.eqb_eq in H1.
      assert (∀ j, (0 ≤ j < 1)%Z → Part001.transient_failure (g j) = true) as Hf.
      { intros j Hj. by assert (j = 0)%Z as -> by lia. }
      destruct (scrape_accepted g 1 r ltac:(lia) Hf Hg H1) as [-> _]. by case_match.
    + destruct (g 0%Z) as [r|] eqn:Hg; [|done]. simpl in H0.
      apply negb_false_iff, Z.eqb_eq in H0.
      assert (∀ j, (0 ≤ j < 0)%Z → Part001.transient_failure (g j) = true) as Hf
        by (intros j Hj; lia).
      destruct (scrape_accepted g 0 r ltac:(lia) Hf Hg H0) as [-> _]. by case_match.
  - intros k r Hk Hfail Hok Hst.
    destruct (scrape_accepted g k r Hk Hfail Hok Hst) as [Hres Hatt].
    split_and!; [done|done|].
    intros g' Hsame. rewrite Hres.
    apply (scrape_accepted g' k r Hk); [|by rewrite Hsame by lia|done].
    intros j Hj. rewrite Hsame by lia. by apply Hfail.
  - apply scrape_exhausted.
Qed.

Lemma scrape_attempts_witness :
  Part001.scrapeProxiesFromURL
    (λ i, if (i =? 0)%Z then Part001.GetErr "connection reset" None
          else if (i =? 1)%Z then Part001.GetOk (mkResponse 502 (Some ""))
          else Part001.GetErr "timeout" None)
  = Part001.ErrFetch "timeout".
Proof.
  exact (proj2 (proj2 (scrape_attempts
    (λ i, if (i =? 0)%Z then Part001.GetErr "connection reset" None
          else if (i =? 1)%Z then Part001.GetOk (mkResponse 502 (Some ""))
          else Part001.GetErr "timeout" None))) eq_refl eq_refl eq_refl).
Defined.

(** ** The shape of what [parseProxies] emits *)
Lemma isDigit_range c :
  Part001.isDigit c = true → 48 ≤ nat_of_ascii c ≤ 57.
Proof.
  unfold Part001.isDigit. intros [H1 H2]%andb_prop.
  apply Nat.leb_le in H1, H2. lia.
Qed.

Lemma field_scan : ∀ s val digLen pos,
  Part001.parseIPv4 s val digLen pos = true → Part001.octet_state val digLen →
  ∃ d r, s = d +:+ r ∧ Part001.all_digits d = true
         ∧ 1 ≤ digLen + String.length d ≤ 3
         ∧ ((r = "" ∧ pos = 3)
            ∨ ∃ r', r = String "." r' ∧ pos ≠ 3
                    ∧ Part001.parseIPv4 r' 0%Z 0 (S pos) = true).
Proof.
  induction s as [|c s IH]; intros val digLen pos Hp Hst.
  - simpl in Hp. apply andb_prop in Hp as [Hd Hpos].
    apply Nat.ltb_lt in Hd. apply Nat.eqb_eq in Hpos.
    exists "", "". split_and!; [done|done|simpl; lia| |by left].
    simpl. destruct digLen as [|[|[|[|]]]]; simpl in Hst; try done; lia.
  - simpl in Hp. destruct (Part001.isDigit c) eqn:Hc.
    + pose proof (isDigit_range c Hc) as Hr.
      destruct ((digLen =? 1) && (val =? 0)%Z) eqn:Hz; [done|].
      destruct (255 <? val * 10 + Z.of_nat (nat_of_ascii c) - 48)%Z eqn:Hv; [done|].
      apply Z.ltb_ge in Hv. apply andb_false_iff in Hz.
      assert (Part001.octet_state (val * 10 + Z.of_nat (nat_of_ascii c) - 48) (S digLen))
        as Hst'.
      { destruct digLen as [|[|[|[|]]]]; simpl in Hst |- *; try done; try lia.
        destruct Hz as [Hz|Hz]; [done|]. apply Z.eqb_neq in Hz. lia. }
      destruct (IH _ _ _ Hp Hst') as (d & r & -> & Hd & Hlen & Hrest).
      exists (String c d), r. split_and!; [done| |simpl; lia|simpl; lia|done].
      unfold Part001.all_digits in *. simpl. by rewrite Hc.
    + destruct (Ascii.eqb_spec c ".") as [->|]; [|done].
      destruct ((digLen =? 0) || (pos =? 3)) eqn:Hz; [done|].
      apply orb_false_iff in Hz as [Hz1 Hz2].
      apply Nat.eqb_neq in Hz1, Hz2.
      exists "", (String "." s). split_and!; [done|done|simpl; lia| |].
      * simpl. destruct digLen as [|[|[|[|]]]]; simpl in Hst; try done; lia.
      * right. by exists s.
Qed.

(** An accepted host is four fields of one to three digits. *)
Lemma isValidIP_fields ip :
  Part001.isValidIP ip = true →
  ∃ a b c d,
    ip = a +:+ "." +:+ b +:+ "." +:+ c +:+ "." +:+ d
    ∧ Forall (λ f, Part001.all_digits f = true ∧ 1 ≤ String.length f ≤ 3) [a; b; c; d].
Proof.
  unfold Part001.isValidIP. intros H0.
  destruct (field_scan _ _ _ _ H0 eq_refl)
    as (a & r & -> & Ha & Hla & [[_ ?]|(r1 & -> & _ & H1)]); [done|].
  destruct (field_scan _ _ _ _ H1 eq_refl)
    as (b & r & -> & Hb & Hlb & [[_ ?]|(r2 & -> & _ & H2)]); [done|].
  destruct (field_scan _ _ _ _ H2 eq_refl)
    as (c & r & -> & Hc & Hlc & [[_ ?]|(r3 & -> & _ & H3)]); [done|].
  destruct (field_scan _ _ _ _ H3 eq_refl)
    as (d & r & -> & Hd & Hld & [[-> _]|(r4 & -> & ? & _)]); [|done].
  exists a, b, c, d. split.
  - by rewrite append_nil_r.
  - repeat (apply Forall_cons; split; [split; [done|lia]|]). done.
Qed.

Lemma isValidPort_digits port :
  Part001.isValidPort port = true
  ↔ Part001.all_digits port = true ∧ 1 ≤ String.length port ≤ 5.
Proof.
  unfold Part001.isValidPort, Part001.all_digits.
  destruct (String.length port =? 0) eqn:H0; simpl.
  - apply Nat.eqb_eq in H0. split; [done|lia].
  - apply Nat.eqb_neq in H0. destruct (5 <? String.length port) eqn:H5.
    + apply Nat.ltb_lt in H5. split; [done|lia].
    + apply Nat.ltb_ge in H5. split; [intros ?; split; [done|lia]|tauto].
Qed.

Lemma port_number_bound port :
  Part001.isValidPort port = true → (0 ≤ Part001.port_number port ≤ 99999)%Z.
Proof.
  intros [Hd Hl]%isValidPort_digits. unfold Part001.all_digits in Hd.
  unfold Part001.port_number.
  destruct port as [|c1 [|c2 [|c3 [|c4 [|c5 [|c6 port]]]]]]; simpl in *; try lia;
    repeat (apply andb_prop in Hd as [?%isDigit_range Hd]); lia.
Qed.

(** ** The regular expression on text cut by separators *)
Lemma digits_split n : ∀ s, s = (Part001.digits n s).1 +:+ (Part001.digits n s).2.
Proof.
  induction n as [|n IH]; intros [|c s]; simpl; try done.
  destruct (Part001.isDigit c); simpl; [|done]. by rewrite append_cons, <- IH.
Qed.

Lemma digits_app n : ∀ a c b,
  Part001.isDigit c = false →
  Part001.digits n (a +:+ String c b)
  = ((Part001.digits n a).1, (Part001.digits n a).2 +:+ String c b).
Proof.
  induction n as [|n IH]; intros [|x a] c b Hc; simpl; try done.
  - rewrite append_nil_l. simpl. by rewrite Hc.
  - rewrite append_cons. simpl. destruct (Part001.isDigit x); simpl; [|done].
    by rewrite IH.
Qed.



Lemma digits_then_split n sep s d r :
  Part001.digits_then n sep s = Some (d, r) → s = d +:+ String sep r.
Proof.
  unfold Part001.digits_then. intros H. rewrite (digits_split n s).
  destruct (Part001.digits n s) as [[|x d'] [|c' r']]; simpl in *; try done.
  destruct (Ascii.eqb_spec c' sep) as [->|]; [|done]. by simplify_eq.
Qed.

Lemma digits_then_app n sep a c b :
  Part001.isDigit c = false → c ≠ sep →
  Part001.digits_then n sep (a +:+ String c b)
  = (λ dr, (dr.1, dr.2 +:+ String c b)) <$> Part001.digits_then n sep a.
Proof.
  intros Hc Hsep. unfold Part001.digits_then. rewrite digits_app by done.
  destruct (Part001.digits n a) as [[|x d] [|c' r]]; simpl; try done.
  - by apply Ascii.eqb_neq in Hsep as ->.
  - by destruct (Ascii.eqb c' sep).
Qed.

Lemma find_all_separator c b :
  Part001.isDigit c = false →
  Part001.find_all 0 (String c b) = Part001.find_all 0 b.
Proof.
  intros Hc. cbn [Part001.find_all]. unfold Part001.match_here, Part001.digits_then.
  simpl. by rewrite Hc.
Qed.

#[local] Arguments Part001.digits : simpl never.

Lemma match_here_app a c b :
  Part001.isDigit c = false → c ≠ "."%char → c ≠ ":"%char →
  Part001.match_here (a +:+ String c b) = Part001.match_here a.
Proof.
  intros Hc Hdot Hcolon. unfold Part001.match_here.
  rewrite digits_then_app by done.
  destruct (Part001.digits_then 3 "." a) as [[d1 r1]|]; simpl; [|done].
  rewrite digits_then_app by done.
  destruct (Part001.digits_then 3 "." r1) as [[d2 r2]|]; simpl; [|done].
  rewrite digits_then_app by done.
  destruct (Part001.digits_then 3 "." r2) as [[d3 r3]|]; simpl; [|done].
  rewrite digits_then_app by done.
  destruct (Part001.digits_then 3 ":" r3) as [[d4 r4]|]; simpl; [|done].
  rewrite digits_app by done. by destruct (Part001.digits 5 r4).
Qed.

Lemma match_here_length s ip port :
  Part001.match_here s = Some (ip, port) →
  String.length ip + 1 + String.length port ≤ String.length s.
Proof.
  unfold Part001.match_here. intros H.
  destruct (Part001.digits_then 3 "." s) as [[d1 r1]|] eqn:H1; simpl in H; [|done].
  destruct (Part001.digits_then 3 "." r1) as [[d2 r2]|] eqn:H2; simpl in H; [|done].
  destruct (Part001.digits_then 3 "." r2) as [[d3 r3]|] eqn:H3; simpl in H; [|done].
  destruct (Part001.digits_then 3 ":" r3) as [[d4 r4]|] eqn:H4; simpl in H; [|done].
  apply digits_then_split in H1, H2, H3, H4. subst s r1 r2 r3.
  pose proof (digits_split 5 r4) as H5.
  destruct (Part001.digits 5 r4) as [[|x p] r5]; simpl in *; [done|].
  simplify_eq.
  rewrite !length_append. simpl. rewrite !length_append. simpl.
  rewrite !length_append. simpl. rewrite !length_append. simpl.
  rewrite ?length_append. lia.
Qed.



Lemma find_all_app : ∀ a skip c b,
  Part001.isDigit c = false → c ≠ "."%char → c ≠ ":"%char →
  Part001.find_all skip (a +:+ String c b)
  = Part001.find_all skip a ++ Part001.find_all (skip - String.length a) (String c b).
Proof.
  induction a as [|x a IH]; intros skip c b Hc Hdot Hcolon.
  - rewrite append_nil_l. simpl. by rewrite Nat.sub_0_r.
  - pose proof (match_here_app (String x a) c b Hc Hdot Hcolon) as Hm.
    rewrite append_cons in *. cbn [Part001.find_all].
    destruct skip as [|k].
    + rewrite Hm. destruct (Part001.match_here (String x a)) as [[ip port]|] eqn:Hs.
      * apply match_here_length in Hs. simpl in Hs.
        rewrite IH by done. simpl.
        replace (String.length ip + String.length port - String.length a) with 0 by lia.
        done.
      * by rewrite IH.
    + rewrite IH by done. done.
Qed.

Lemma parse_fold_app ms : ∀ acc,
  foldl Part001.parse_step acc ms = acc ++ foldl Part001.parse_step [] ms.
Proof.
  induction ms as [|m ms IH]; intros acc; simpl; [by rewrite app_nil_r|].
  rewrite IH, (IH (Part001.parse_step [] m)), app_assoc. f_equal.
  unfold Part001.parse_step. repeat case_match; by rewrite ?app_nil_r.
Qed.

Lemma parseProxies_cut a c b :
  Part001.isDigit c = false → c ≠ "."%char → c ≠ ":"%char →
  Part001.parseProxies (a +:+ String c b)
  = Part001.parseProxies a ++ Part001.parseProxies b.
Proof.
  intros Hc Hdot Hcolon. unfold Part001.parseProxies.
  rewrite find_all_app, Nat.sub_0_l, find_all_separator by done.
  by rewrite foldl_app, parse_fold_app.
Qed.






(** X4. The shape of every proxy that [parseProxies] emits, whatever
    the text: the host is four dot-separated fields of one to three
    digits, the port is one to five digits and so denotes a number
    between 0 and 99999 (the only range the code enforces), [Full] is
    [IP:Port], and [Full] holds exactly one colon. *)
Theorem parsed_proxy_shape :
  ∀ content p,
    p ∈ Part001.parseProxies content →
    (∃ a b c d,
       Part001.IP p = a +:+ "." +:+ b +:+ "." +:+ c +:+ "." +:+ d
       ∧ Forall (λ f, Part001.all_digits f = true ∧ 1 ≤ String.length f ≤ 3)
                [a; b; c; d]) ∧
    Part001.all_digits (Part001.Port p) = true ∧
    1 ≤ String.length (Part001.Port p) ≤ 5 ∧
    (0 ≤ Part001.port_number (Part001.Port p) ≤ 99999)%Z ∧
    Part001.Full p = Part001.IP p +:+ ":" +:+ Part001.Port p ∧
    Part001a.count_colons (Part001.Full p) = 1.
Proof.
  intros content p Hp.
  pose proof (parseProxies_valid content) as Hv. rewrite Forall_forall in Hv.
  destruct (Hv p Hp) as (Hip & Hport & Hfull).
  pose proof (proj1 (isValidPort_digits _) Hport) as [Hd Hl].
  split; [by apply isValidIP_fields|]. split; [done|]. split; [done|].
  split; [by apply port_number_bound|]. split; [done|].
  rewrite Hfull, !colons_append.
  by rewrite (parseIPv4_no_colon _ _ _ _ Hip), (digits_no_colon _ Hd).
Qed.

Lemma parsed_proxy_shape_witness :
  Part001.mkProxy "10.0.0.1" "99999" "10.0.0.1:99999"
    ∈ Part001.parseProxies "socks 10.0.0.1:99999x"
  ∧ (0 ≤ Part001.port_number "99999" ≤ 99999)%Z.
Proof.
  assert (Part001.mkProxy "10.0.0.1" "99999" "10.0.0.1:99999"
            ∈ Part001.parseProxies "socks 10.0.0.1:99999x") as Hp
    by (vm_compute; left).
  split; [exact Hp|].
  exact (proj1 (proj2 (proj2 (proj2 (parsed_proxy_shape _ _ Hp))))).
Defined.

(** X5. [parseProxies] reads a text piece by piece: a character that is
    neither a digit, a dot nor a colon cuts the text, and the proxies of
    the whole are those of the part before followed by those of the part
    after. So the proxies of lines joined by newlines are the proxies of
    each line, in order; an empty text has none. *)
Theorem parseProxies_by_lines :
  Part001.parseProxies "" = [] ∧
  (∀ a c b,
     Part001.isDigit c = false → c ≠ "."%char → c ≠ ":"%char →
     Part001.parseProxies (a +:+ String c b)
     = Part001.parseProxies a ++ Part001.parseProxies b) ∧
  (∀ lines,
     Part001.parseProxies (strings_Join lines (String "010" ""))
     = lines ≫= Part001.parseProxies).
Proof.
  split_and!; [done|apply parseProxies_cut|].
  induction lines as [|l [|l' lines] IH]; [done| |].
  - simpl. by rewrite app_nil_r.
  - change (strings_Join (l :: l' :: lines) (String "010" ""))
      with (l +:+ String "010" "" +:+ strings_Join (l' :: lines) (String "010" "")).
    rewrite append_cons, append_nil_l, parseProxies_cut, IH by done.
    by rewrite bind_cons.
Qed.

Lemma parseProxies_by_lines_witness :
  Part001.parseProxies ("1.2.3.4:8080" +:+ String "010" "5.6.7.8:3128")
  = Part001.parseProxies "1.2.3.4:8080" ++ Part001.parseProxies "5.6.7.8:3128".
Proof.
  exact (proj1 (proj2 parseProxies_by_lines) "1.2.3.4:8080" "010"%char "5.6.7.8:3128"
           eq_refl ltac:(discriminate) ltac:(discriminate)).
Defined.






(** ** Every schedule of the checkers ends *)
Lemma sum_insert {A} (f : A → nat) (l : list A) i x y :
  l !! i = Some x →
  sum_list_with f (<[i:=y]> l) + f x = sum_list_with f l + f y.
Proof.
  intros Hi. destruct (insert_middle l i x y Hi) as (l1 & l2 & -> & ->).
  rewrite !sum_list_with_app. simpl. lia.
Qed.

Lemma deep_step_work cap s s' :
  Deep.step cap s s' → Deep.work_left s = S (Deep.work_left s').
Proof.
  unfold Deep.work_left.
  intros [? i p Hi _|? i p net Hi|? i p alive Hi _|? i p alive Hi]; simpl.
  - pose proof (sum_insert Deep.steps_left _ _ _ (p, Deep.GChecking) Hi) as H.
    change (Deep.steps_left (p, Deep.GStart)) with 4 in H.
    change (Deep.steps_left (p, Deep.GChecking)) with 3 in H. lia.
  - pose proof (sum_insert Deep.steps_left _ _ _
                  (p, Deep.GChecked (Deep.checkProxy net p)) Hi) as H.
    change (Deep.steps_left (p, Deep.GChecking)) with 3 in H.
    change (Deep.steps_left (p, Deep.GChecked _)) with 2 in H. lia.
  - pose proof (sum_insert Deep.steps_left _ _ _ (p, Deep.GReleased alive) Hi) as H.
    change (Deep.steps_left (p, Deep.GChecked _)) with 2 in H.
    change (Deep.steps_left (p, Deep.GReleased _)) with 1 in H. lia.
  - pose proof (sum_insert Deep.steps_left _ _ _ (p, Deep.GDone alive) Hi) as H.
    change (Deep.steps_left (p, Deep.GReleased _)) with 1 in H.
    change (Deep.steps_left (p, Deep.GDone _)) with 0 in H. lia.
Qed.

Lemma deep_init_work proxies : Deep.work_left (Deep.init proxies) = 4 * length proxies.
Proof.
  unfold Deep.work_left, Deep.init; simpl.
  induction proxies as [|p l IH]; [done|]. simpl. rewrite IH.
  unfold Deep.steps_left; simpl. lia.
Qed.

(** Either some goroutine is past the semaphore, or all wait or are done. *)
Lemma deep_pool_cases (l : list (string * Deep.gstate)) :
  (∃ i p st, l !! i = Some (p, st) ∧ st ≠ Deep.GStart ∧ ∀ b, st ≠ Deep.GDone b)
  ∨ Forall (λ g, g.2 = Deep.GStart ∨ ∃ b, g.2 = Deep.GDone b) l.
Proof.
  induction l as [|[p st] l [(i & q & st' & Hi & ?)|IH]].
  - right. constructor.
  - left. by exists (S i), q, st'.
  - destruct st as [| | | |b].
    + right. constructor; [by left|done].
    + left. by exists 0, p, Deep.GChecking.
    + left. by exists 0, p, (Deep.GChecked alive).
    + left. by exists 0, p, (Deep.GReleased alive).
    + right. constructor; [right; by exists b|done].
Qed.

Lemma deep_progress cap proxies s :
  0 < cap → Deep.inv cap proxies s →
  Deep.finished s ∨ ∃ s', Deep.step cap s s'.
Proof.
  intros Hcap [_ Hsem _ _].
  destruct (deep_pool_cases (Deep.gor s)) as [(i & p & st & Hi & Hs & Hd)|Hall].
  - right. destruct st as [| |alive|alive|b]; [done| | | |by destruct (Hd b)].
    + eexists. by apply (Deep.step_check cap s i p net_ok).
    + eexists. apply (Deep.step_release cap s i p alive Hi).
      rewrite Hsem. apply list_elem_of_lookup_2 in Hi.
      assert ((p, Deep.GChecked alive) ∈ filter (λ g, Deep.holds_slot g) (Deep.gor s)) as Hin
        by by apply list_elem_of_filter.
      destruct (filter _ _); [by apply elem_of_nil in Hin|simpl; lia].
    + eexists. by apply (Deep.step_record cap s i p alive).
  - assert (Deep.sem s = 0) as Hz.
    { rewrite Hsem. clear -Hall. induction Hall as [|[p st] l Hg _ IH]; [done|].
      rewrite filter_cons_False; [done|].
      unfold Deep.holds_slot. simpl in *. destruct Hg as [->|[b ->]]; by intros []. }
    destruct (decide (Deep.finished s)) as [?|Hnf]; [by left|right].
    unfold Deep.finished in Hnf. apply not_true_is_false in Hnf.
    assert (∃ i p, Deep.gor s !! i = Some (p, Deep.GStart)) as (i & p & Hi).
    { clear -Hall Hnf. induction Hall as [|[p st] l Hg _ IH]; [done|].
      simpl in *. destruct Hg as [->|[b ->]].
      - by exists 0, p.
      - unfold Deep.is_done in Hnf at 1. simpl in Hnf.
        destruct (IH Hnf) as (i & q & Hi). by exists (S i), q. }
    eexists. apply (Deep.step_acquire cap s i p Hi). lia.
Qed.

Lemma deep_can_finish cap proxies : 0 < cap → ∀ k s,
  Deep.work_left s = k → Deep.inv cap proxies s →
  ∃ s', rtc (Deep.step cap) s s' ∧ Deep.finished s'.
Proof.
  intros Hcap. induction k as [|k IH]; intros s Hk Hinv.
  - destruct (deep_progress cap proxies s Hcap Hinv) as [?|[s' Hs]]; [by exists s|].
    apply deep_step_work in Hs. lia.
  - destruct (deep_progress cap proxies s Hcap Hinv) as [?|[s' Hs]]; [by exists s|].
    destruct (IH s') as (s'' & Hr & Hf).
    + apply deep_step_work in Hs. lia.
    + by eapply deep_inv_step.
    + exists s''. split; [by eapply rtc_l|done].
Qed.

Lemma deep_finished_work s : Deep.finished s ↔ Deep.work_left s = 0.
Proof.
  unfold Deep.finished, Deep.work_left.
  induction (Deep.gor s) as [|[p st] l IH]; [done|]. simpl.
  rewrite andb_true_iff, IH. unfold Deep.is_done, Deep.steps_left. simpl.
  destruct st; simpl; split; try done; lia.
Qed.

Lemma deep_nsteps_work cap proxies : ∀ n s,
  nsteps (Deep.step cap) n (Deep.init proxies) s →
  n + Deep.work_left s = 4 * length proxies.
Proof.
  induction n as [|n IH]; intros s Hr.
  - inversion Hr; subst. apply deep_init_work.
  - apply nsteps_inv_r in Hr as (s0 & Hr & Hstep).
    specialize (IH _ Hr). apply deep_step_work in Hstep. lia.
Qed.

(** X8. [checkProxiesConcurrently] of deep.go returns under every
    schedule. With a semaphore of positive capacity, after [n]
    transitions from the start exactly [4 * len(proxies) - n] remain, so
    no run is longer than four transitions per proxy; a pool that has
    not finished can always take a transition (no deadlock on [sem] or
    [mu]); the run is complete exactly after [4 * len(proxies)]
    transitions; and from every reachable state a complete run exists. *)
Theorem deep_checker_terminates :
  ∀ cap proxies n s,
    0 < cap →
    nsteps (Deep.step cap) n (Deep.init proxies) s →
    n + Deep.work_left s = 4 * length proxies ∧
    (Deep.finished s ↔ n = 4 * length proxies) ∧
    (¬ Deep.finished s → ∃ s', Deep.step cap s s') ∧
    (∃ s', rtc (Deep.step cap) s s' ∧ Deep.finished s').
Proof.
  intros cap proxies n s Hcap Hr.
  pose proof (deep_nsteps_work cap proxies n s Hr) as Hw.
  assert (Deep.inv cap proxies s) as Hinv.
  { apply deep_inv_reachable. by eapply rtc_nsteps_2. }
  split_and!.
  - done.
  - rewrite deep_finished_work. lia.
  - intros Hnf. by destruct (deep_progress cap proxies s Hcap Hinv).
  - by eapply deep_can_finish.
Qed.

Lemma deep_checker_terminates_witness :
  nsteps (Deep.step 200) 0 (Deep.init ["1.2.3.4:8080"; "5.6.7.8:3128"])
    (Deep.init ["1.2.3.4:8080"; "5.6.7.8:3128"])
  ∧ ∃ s', rtc (Deep.step 200) (Deep.init ["1.2.3.4:8080"; "5.6.7.8:3128"]) s'
          ∧ Deep.finished s'.
Proof.
  assert (nsteps (Deep.step 200) 0 (Deep.init ["1.2.3.4:8080"; "5.6.7.8:3128"])
            (Deep.init ["1.2.3.4:8080"; "5.6.7.8:3128"])) as Hr by constructor.
  split; [exact Hr|].
  exact (proj2 (proj2 (proj2 (deep_checker_terminates 200 _ 0 _ ltac:(lia) Hr)))).
Defined.

Lemma checker_step_work s s' :
  Part001.step s s' → Part001.work_left s = S (Part001.work_left s').
Proof.
  unfold Part001.work_left.
  intros [? p rest Hts _|? Hts Hc|? i p rest Hi Hj|? i Hi Hj Hc|? i p net Hi|? i p ok Hi];
    simpl.
  - rewrite Hts, length_app. simpl. lia.
  - rewrite Hc. lia.
  - pose proof (sum_insert Part001.steps_left _ _ _ (Part001.WChecking p) Hi) as H.
    simpl in H. rewrite Hj. simpl. lia.
  - pose proof (sum_insert Part001.steps_left _ _ _ Part001.WExited Hi) as H.
    simpl in H. lia.
  - pose proof (sum_insert Part001.steps_left _ _ _
                  (Part001.WChecked p (Part001.checkProxy net p)) Hi) as H.
    simpl in H. lia.
  - pose proof (sum_insert Part001.steps_left _ _ _ Part001.WIdle Hi) as H.
    simpl in H. lia.
Qed.

Lemma checker_init_work W proxies :
  Part001.work_left (Part001.init W proxies) = 4 * length proxies + W + 1.
Proof.
  unfold Part001.work_left, Part001.init; simpl.
  assert (sum_list_with Part001.steps_left (replicate W Part001.WIdle) = W) as ->.
  { induction W as [|W IH]; [done|]. simpl. by rewrite IH. }
  lia.
Qed.

Lemma checker_progress W proxies s :
  Part001.inv W proxies s → Part001.finished s ∨ ∃ s', Part001.step s s'.
Proof.
  intros [_ _ _ _ Hcap].
  destruct (Part001.tosend s) as [|p rest] eqn:Hts.
  2:{ right. eexists. apply (Part001.step_send s p rest Hts). simpl in Hcap. lia. }
  destruct (Part001.closed s) eqn:Hc.
  2:{ right. eexists. by apply Part001.step_close. }
  destruct (decide (Forall (λ w, w = Part001.WExited) (Part001.workers s))) as [?|Hne];
    [by left|right].
  apply not_Forall_Exists in Hne; [|apply _].
  apply Exists_exists in Hne as (w & Hw & Hnw).
  apply list_elem_of_lookup in Hw as [i Hi].
  destruct w as [|p|p ok|]; [| | |by destruct Hnw].
  - destruct (Part001.jobs s) as [|p js] eqn:Hj.
    + eexists. by apply (Part001.step_exit s i).
    + eexists. by apply (Part001.step_recv s i p js).
  - eexists. by apply (Part001.step_check s i p net_ok).
  - eexists. by apply (Part001.step_record s i p ok).
Qed.

Lemma checker_can_finish W proxies : ∀ k s,
  Part001.work_left s = k → Part001.inv W proxies s →
  ∃ s', rtc Part001.step s s' ∧ Part001.finished s'.
Proof.
  induction k as [|k IH]; intros s Hk Hinv.
  - destruct (checker_progress W proxies s Hinv) as [?|[s' Hs]]; [by exists s|].
    apply checker_step_work in Hs. lia.
  - destruct (checker_progress W proxies s Hinv) as [?|[s' Hs]]; [by exists s|].
    destruct (IH s') as (s'' & Hr & Hf).
    + apply checker_step_work in Hs. lia.
    + by eapply checker_inv_step.
    + exists s''. split; [by eapply rtc_l|done].
Qed.

Lemma checker_nsteps_work W proxies : ∀ n s,
  nsteps Part001.step n (Part001.init W proxies) s →
  n + Part001.work_left s = 4 * length proxies + W + 1.
Proof.
  induction n as [|n IH]; intros s Hr.
  - inversion Hr; subst. apply checker_init_work.
  - apply nsteps_inv_r in Hr as (s0 & Hr & Hstep).
    specialize (IH _ Hr). apply checker_step_work in Hstep. lia.
Qed.

(** X9. [validateProxies] returns under every schedule, for any number
    of workers. After [n] transitions (sends, the close, receives,
    checks, appends, exits) at most [4 * len(proxies) + maxWorkers + 1 - n]
    remain, so no run is longer than that; a pool that has not returned
    can always take a transition (the buffered channel never blocks the
    sender, a waiting worker gets a job or sees the close); and from
    every reachable state a complete run exists. *)
Theorem checker_pool_terminates :
  ∀ W proxies n s,
    nsteps Part001.step n (Part001.init W proxies) s →
    n + Part001.work_left s = 4 * length proxies + W + 1 ∧
    n ≤ 4 * length proxies + W + 1 ∧
    (¬ Part001.finished s → ∃ s', Part001.step s s') ∧
    (∃ s', rtc Part001.step s s' ∧ Part001.finished s').
Proof.
  intros W proxies n s Hr.
  pose proof (checker_nsteps_work W proxies n s Hr) as Hw.
  assert (Part001.inv W proxies s) as Hinv.
  { apply checker_inv_reachable. by eapply rtc_nsteps_2. }
  split_and!; [done|lia| |by eapply checker_can_finish].
  intros Hnf. by destruct (checker_progress W proxies s Hinv).
Qed.

Lemma checker_pool_terminates_witness :
  nsteps Part001.step 0
    (Part001.init 100 [Part001.mkProxy "1.2.3.4" "8080" "1.2.3.4:8080"])
    (Part001.init 100 [Part001.mkProxy "1.2.3.4" "8080" "1.2.3.4:8080"])
  ∧ ∃ s', rtc Part001.step
            (Part001.init 100 [Part001.mkProxy "1.2.3.4" "8080" "1.2.3.4:8080"]) s'
          ∧ Part001.finished s'.
Proof.
  assert (nsteps Part001.step 0
    (Part001.init 100 [Part001.mkProxy "1.2.3.4" "8080" "1.2.3.4:8080"])
    (Part001.init 100 [Part001.mkProxy "1.2.3.4" "8080" "1.2.3.4:8080"])) as Hr
    by constructor.
  split; [exact Hr|].
  exact (proj2 (proj2 (proj2 (checker_pool_terminates 100 _ 0 _ Hr)))).
Defined.

(** ** part_000: the pipeline of [main] *)
Section streaming_pipeline.
Import Part000.
Variable sources : list (list string).

Lemma streaming_inv_init : inv sources (init sources).
Proof.
  split; unfold init; cbn [workers scraped live scrapers written uniqueProxies
                          scraped_closed live_closed]; try done.
  - simpl. lia.
  - simpl. lia.
  - intros l x Hl Hx. apply list_elem_of_join. by exists l.
  - intros x Hx. by apply elem_of_nil in Hx.
  - intros w x Hw Hx. apply elem_of_replicate in Hw as [-> _]. by apply elem_of_nil in Hx.
  - intros x Hx. by apply elem_of_nil in Hx.
  - intros x Hx. by apply elem_of_nil in Hx.
  - intros x Hx. by apply elem_of_nil in Hx.
  - constructor.
  - intros Hin. apply elem_of_replicate in Hin as [? _]. done.
Qed.

Lemma streaming_inv_step s s' : inv sources s → step s s' → inv sources s'.
Proof.
  intros [Hw Hsc Hlc Hfs Hfq Hfw Hfl Hfo Hu Hnd Hex Hcl Hlcl] Hstep.
  assert (Hbusy : ∀ i w, workers s !! i = Some w → w ≠ WExited → live_closed s ≠ true).
  { intros i w Hi Hne Hc. specialize (Hlcl Hc). rewrite Forall_forall in Hlcl.
    apply list_elem_of_lookup_2 in Hi. by specialize (Hlcl _ Hi). }
  assert (Hopen : ∀ j p rest, scrapers s !! j = Some (p :: rest) → scraped_closed s ≠ true).
  { intros j p rest Hj Hc. specialize (Hcl Hc). rewrite Forall_forall in Hcl.
    apply list_elem_of_lookup_2 in Hj. by specialize (Hcl _ Hj). }
  destruct Hstep as [s j p rest Hj Hlt | s Hall Hc | s i p rest Hi Hq
                    | s i Hi Hq Hc | s i p net Hi | s i p Hi Hlt
                    | s Hall Hc | s p rest write_ok Hl];
    split; cbn [workers scraped live scrapers written uniqueProxies
                scraped_closed live_closed]; rewrite ?length_insert; try done.
  - rewrite length_app. unfold workerCount in *. simpl length. lia.
  - intros l x Hl Hx. apply (elem_of_insert_inv _ _ _ _ _ Hj) in Hl as [->|Hl].
    + apply (Hfs (p :: rest)); [by eapply list_elem_of_lookup_2|by right].
    + by eapply Hfs.
  - intros x [Hx|Hx%list_elem_of_singleton]%elem_of_app; [by apply Hfq|subst].
    apply (Hfs (p :: rest)); [by eapply list_elem_of_lookup_2|left].
  - intros Hin. destruct (Hex Hin) as [Hc _]. by destruct (Hopen _ _ _ Hj).
  - intros Hc. by destruct (Hopen _ _ _ Hj).
  - intros Hin. destruct (Hex Hin) as [Hc' _]. congruence.
  - rewrite Hq in Hsc. unfold workerCount in *. simpl length in Hsc. lia.
  - intros x Hx. apply Hfq. rewrite Hq. by right.
  - intros w x Hw' Hx. apply (elem_of_insert_inv _ _ _ _ _ Hi) in Hw' as [->|Hw'].
    + simpl in Hx. apply list_elem_of_singleton in Hx as ->. apply Hfq. rewrite Hq. left.
    + by eapply Hfw.
  - intros Hin. apply (elem_of_insert_inv _ _ _ _ _ Hi) in Hin as [?|Hin]; [done|].
    destruct (Hex Hin) as [_ Hn]. congruence.
  - intros Hc. by destruct (Hbusy _ _ Hi).
  - intros w x Hw' Hx. apply (elem_of_insert_inv _ _ _ _ _ Hi) in Hw' as [->|Hw'].
    + by apply elem_of_nil in Hx.
    + by eapply Hfw.
  - intros Hc'. by destruct (Hbusy _ _ Hi).
  - intros w x Hw' Hx. apply (elem_of_insert_inv _ _ _ _ _ Hi) in Hw' as [->|Hw'].
    + apply (Hfw (WChecking p)); [by eapply list_elem_of_lookup_2|].
      destruct (probe net p); simpl in Hx; [done|by apply elem_of_nil in Hx].
    + by eapply Hfw.
  - intros Hin. apply (elem_of_insert_inv _ _ _ _ _ Hi) in Hin as [Heq|Hin]; [|by apply Hex].
    by destruct (probe net p).
  - intros Hc. by destruct (Hbusy _ _ Hi).
  - rewrite length_app. unfold workerCount in *. simpl length. lia.
  - intros w x Hw' Hx. apply (elem_of_insert_inv _ _ _ _ _ Hi) in Hw' as [->|Hw'].
    + by apply elem_of_nil in Hx.
    + by eapply Hfw.
  - intros x [Hx|Hx%list_elem_of_singleton]%elem_of_app; [by apply Hfl|subst].
    apply (Hfw (WSending p)); [by eapply list_elem_of_lookup_2|left].
  - intros Hin. apply (elem_of_insert_inv _ _ _ _ _ Hi) in Hin as [?|Hin]; [done|].
    by apply Hex.
  - intros Hc. by destruct (Hbusy _ _ Hi).
  - rewrite Hl in Hlc. unfold workerCount in *. simpl length in Hlc. lia.
  - intros x Hx. apply Hfl. rewrite Hl. by right.
  - intros x Hx. destruct (uniqueProxies s !! p); [by apply Hfo|].
    destruct write_ok; [|by apply Hfo].
    apply elem_of_app in Hx as [Hx|Hx%list_elem_of_singleton]; [by apply Hfo|subst].
    apply Hfl. rewrite Hl. left.
  - intros x Hx. destruct (uniqueProxies s !! p) eqn:Hp; [by apply Hu|].
    destruct (decide (x = p)) as [->|Hne]; [by rewrite lookup_insert_eq|].
    rewrite lookup_insert_ne by done. apply Hu.
    destruct write_ok; [|done].
    apply elem_of_app in Hx as [Hx|Hx%list_elem_of_singleton]; done.
  - destruct (uniqueProxies s !! p) eqn:Hp; [done|]. destruct write_ok; [|done].
    apply NoDup_app. split_and!; [done| |apply NoDup_singleton].
    intros x Hx ->%list_elem_of_singleton. apply Hu in Hx. congruence.
Qed.

Lemma streaming_inv_reachable s : rtc step (init sources) s → inv sources s.
Proof.
  intros Hr. apply rtc_nsteps in Hr as [n Hr]. revert s Hr.
  induction n as [|n IH]; intros s Hr.
  - inversion Hr; subst. apply streaming_inv_init.
  - apply nsteps_inv_r in Hr as (s0 & Hr & Hstep).
    eapply streaming_inv_step; [by apply IH|done].
Qed.







End streaming_pipeline.

(** X10. In every state the pipeline of part_000 can reach, under any
    interleaving of scrapers, workers and collector and whatever the
    network and the file writer answer: the two channels hold at most
    [workerCount*10] and [workerCount] addresses; the lines given to the
    output file are pairwise distinct, each is a line some source
    delivered, and each is recorded in [uniqueProxies]; and a worker has
    left its loop only if the input channel is closed and empty. *)
Theorem streaming_pipeline_safe :
  ∀ sources s,
    rtc Part000.step (Part000.init sources) s →
    length (Part000.scraped s) ≤ Part000.workerCount * 10 ∧
    length (Part000.live s) ≤ Part000.workerCount ∧
    NoDup (Part000.written s) ∧
    (∀ x, x ∈ Part000.written s →
          (∃ l, l ∈ sources ∧ x ∈ l) ∧ Part000.uniqueProxies s !! x = Some true) ∧
    (Part000.WExited ∈ Part000.workers s →
       Part000.scraped_closed s = true ∧ Part000.scraped s = []).
Proof.
  intros sources s Hr.
  pose proof (streaming_inv_reachable sources s Hr) as Hinv.
  split_and!; try apply Hinv.
  intros x Hx. split.
  - apply (Part000.inv_from_written _ _ Hinv), list_elem_of_join in Hx as (l & ? & ?).
    by exists l.
  - by apply (Part000.inv_unique _ _ Hinv).
Qed.

Lemma streaming_pipeline_safe_witness :
  rtc Part000.step (Part000.init [["1.2.3.4:8080"]])
      (Part000.mkState [[]] ["1.2.3.4:8080"] false
         (replicate Part000.workerCount Part000.WIdle) [] false ∅ [])
  ∧ NoDup (Part000.written
             (Part000.mkState [[]] ["1.2.3.4:8080"] false
                (replicate Part000.workerCount Part000.WIdle) [] false ∅ [])).
Proof.
  assert (rtc Part000.step (Part000.init [["1.2.3.4:8080"]])
            (Part000.mkState [[]] ["1.2.3.4:8080"] false
               (replicate Part000.workerCount Part000.WIdle) [] false ∅ [])) as Hr.
  { apply rtc_once.
    apply (Part000.step_scrape (Part000.init [["1.2.3.4:8080"]]) 0 "1.2.3.4:8080" []);
      [reflexivity|vm_compute; lia]. }
  split; [exact Hr|].
  exact (proj1 (proj2 (proj2 (streaming_pipeline_safe _ _ Hr)))).
Defined.











(** ** Verdicts do not depend on the schedule *)
Section deep_stable_network.
Variable net : Net.
Variable cap : nat.

Lemma deep_judged_step s s' :
  Deep.step_under net cap s s' → Deep.judged net s → Deep.judged net s'.
Proof.
  intros [Hstep Hnet] HJ j q g a Hj Hv.
  destruct Hstep as [s i p Hi _|s i p net' Hi|s i p alive Hi _|s i p alive Hi];
    simpl in Hj, Hnet; apply list_lookup_insert_Some in Hj as [(-> & Heq & _)|[_ Hj]];
    try (by eapply HJ); simplify_eq; simpl in Hv; simplify_eq.
  - apply (Hnet j q); [done|]. apply list_lookup_insert_eq. by eapply lookup_lt_Some.
  - by apply (HJ j q (Deep.GChecked a)).
  - by apply (HJ j q (Deep.GReleased a)).
Qed.

Lemma deep_judged_reachable proxies s :
  rtc (Deep.step_under net cap) (Deep.init proxies) s →
  Deep.judged net s ∧ rtc (Deep.step cap) (Deep.init proxies) s.
Proof.
  intros Hr. apply rtc_nsteps in Hr as [n Hr]. revert s Hr.
  induction n as [|n IH]; intros s Hr.
  - inversion Hr; subst. split; [|done].
    intros i p g a Hi Hv. unfold Deep.init in Hi. simpl in Hi.
    rewrite list_lookup_fmap in Hi.
    destruct (proxies !! i); simpl in Hi; by simplify_eq.
  - apply nsteps_inv_r in Hr as (s0 & Hr & Hstep).
    destruct (IH _ Hr) as [HJ Hrtc]. split.
    + by eapply deep_judged_step.
    + eapply rtc_r; [done|]. by destruct Hstep.
Qed.

Lemma deep_verdicts_filter (l : list (string * Deep.gstate)) :
  (∀ g, g ∈ l → g.2 = Deep.GDone (Deep.checkProxy net g.1)) →
  (filter (λ g, g.2 = Deep.GDone true) l).*1
  = filter (λ p, Deep.checkProxy net p) l.*1.
Proof.
  induction l as [|[p g] l IH]; intros Hl; [done|].
  rewrite fmap_cons, !filter_cons. simpl.
  pose proof (Hl (p, g) ltac:(left)) as Hg. simpl in Hg. subst g.
  rewrite <- IH by (intros g Hg; apply Hl; by right).
  destruct (Deep.checkProxy net p).
  - rewrite decide_True by done. by rewrite decide_True by done.
  - rewrite decide_False by done. by rewrite decide_False by (by intros []).
Qed.

Lemma deep_stable_result proxies s :
  rtc (Deep.step_under net cap) (Deep.init proxies) s → Deep.finished s →
  Deep.goodProxies s ≡ₚ filter (λ p, Deep.checkProxy net p) proxies.
Proof.
  intros Hr Hf. destruct (deep_judged_reachable proxies s Hr) as [HJ Hrtc].
  destruct (deep_inv_reachable _ _ _ Hrtc) as [Ha _ _ Hg].
  rewrite Hg, <- Ha. unfold Deep.verdict_of. rewrite deep_verdicts_filter; [done|].
  intros [p g] Hin. simpl.
  destruct (deep_finished_verdicts s Hf _ Hin) as [alive Hd]. simpl in Hd. subst g.
  apply list_elem_of_lookup in Hin as [i Hi].
  by rewrite (HJ i p _ alive Hi eq_refl).
Qed.

End deep_stable_network.

Lemma filter_none {A} (P : A → Prop) `{!∀ x, Decision (P x)} (l : list A) :
  Forall (λ x, ¬ P x) l → filter P l = [].
Proof.
  induction 1 as [|x l Hx _ IH]; [done|].
  by rewrite filter_cons, decide_False by done.
Qed.

Section checker_stable_network.
Variable net : Net.

Lemma checker_judged_step s s' :
  Part001.step_under net s s' → Part001.judged net s → Part001.judged net s'.
Proof.
  intros [Hstep Hnet] (Hw & Hv & Hiv).
  destruct Hstep as [s p rest Hts _|s Hts Hc|s i p rest Hi Hj|s i Hi Hj Hc
                    |s i p net' Hi|s i p ok Hi];
    simpl in Hnet; (split; [|split]); simpl; try done.
  - intros j q ok [(-> & Heq & _)|[_ Hj']]%list_lookup_insert_Some; [done|by eapply Hw].
  - intros j q ok [(-> & Heq & _)|[_ Hj']]%list_lookup_insert_Some; [done|by eapply Hw].
  - intros j q ok [(-> & Heq & _)|[_ Hj']]%list_lookup_insert_Some; [|by eapply Hw].
    simplify_eq. apply (Hnet j q); [done|].
    apply list_lookup_insert_eq. by eapply lookup_lt_Some.
  - intros j q ok' [(-> & Heq & _)|[_ Hj']]%list_lookup_insert_Some; [done|by eapply Hw].
  - destruct ok; [|done]. apply Forall_app. split; [done|].
    apply Forall_singleton. symmetry. by apply (Hw i p).
  - destruct ok; [done|]. apply Forall_app. split; [done|].
    apply Forall_singleton. symmetry. by apply (Hw i p).
Qed.

Lemma checker_judged_reachable W proxies s :
  rtc (Part001.step_under net) (Part001.init W proxies) s →
  Part001.judged net s ∧ rtc Part001.step (Part001.init W proxies) s.
Proof.
  intros Hr. apply rtc_nsteps in Hr as [n Hr]. revert s Hr.
  induction n as [|n IH]; intros s Hr.
  - inversion Hr; subst. split; [|done]. split; [|by split].
    intros i p ok Hi. simpl in Hi. apply lookup_replicate in Hi as [? _]. done.
  - apply nsteps_inv_r in Hr as (s0 & Hr & Hstep).
    destruct (IH _ Hr) as [HJ Hrtc]. split.
    + by eapply checker_judged_step.
    + eapply rtc_r; [done|]. by destruct Hstep.
Qed.

Lemma checker_stable_result W proxies s :
  0 < W →
  rtc (Part001.step_under net) (Part001.init W proxies) s → Part001.finished s →
  Part001.validProxies s ≡ₚ filter (λ p, Part001.checkProxy net p) proxies ∧
  Part001.invalidProxies s ≡ₚ filter (λ p, negb (Part001.checkProxy net p)) proxies.
Proof.
  intros HW Hr Hf. destruct (checker_judged_reachable W proxies s Hr) as [HJ Hrtc].
  destruct HJ as (_ & Hv & Hiv).
  pose proof (checker_finished_all W proxies s HW
                (checker_inv_reachable _ _ _ Hrtc) Hf) as Hall.
  rewrite <- Hall, !filter_app. split.
  - rewrite filter_all, filter_none, app_nil_r; [done| |].
    + eapply Forall_impl; [exact Hiv|]. intros p Hp. simpl. rewrite Hp. by intros [].
    + eapply Forall_impl; [exact Hv|]. intros p Hp. simpl. by rewrite Hp.
  - rewrite filter_none, filter_all; [done| |].
    + eapply Forall_impl; [exact Hiv|]. intros p Hp. simpl. by rewrite Hp.
    + eapply Forall_impl; [exact Hv|]. intros p Hp. simpl. rewrite Hp. by intros [].
Qed.

End checker_stable_network.

(** X13. If the network answers the same way throughout a run of
    [checkProxiesConcurrently] of deep.go, the list returned holds
    exactly the candidates that [checkProxy] accepts on that network,
    each as often as it was given: the schedule and the capacity of the
    semaphore decide the order of the list and nothing else, so any two
    such runs return the same addresses. *)
Theorem deep_verdicts_schedule_free :
  ∀ net cap proxies s,
    rtc (Deep.step_under net cap) (Deep.init proxies) s → Deep.finished s →
    Deep.goodProxies s ≡ₚ filter (λ p, Deep.checkProxy net p) proxies ∧
    (∀ cap' s',
       rtc (Deep.step_under net cap') (Deep.init proxies) s' → Deep.finished s' →
       Deep.goodProxies s' ≡ₚ Deep.goodProxies s).
Proof.
  intros net cap proxies s Hr Hf.
  pose proof (deep_stable_result net cap proxies s Hr Hf) as Hs.
  split; [done|]. intros cap' s' Hr' Hf'.
  by rewrite Hs, (deep_stable_result net cap' proxies s' Hr' Hf').
Qed.

Lemma deep_verdicts_schedule_free_witness :
  ∃ s, rtc (Deep.step_under net_one 200) (Deep.init ["1.2.3.4:8080"]) s
       ∧ Deep.finished s
       ∧ Deep.goodProxies s ≡ₚ filter (λ p, Deep.checkProxy net_one p) ["1.2.3.4:8080"].
Proof.
  assert (∃ s, rtc (Deep.step_under net_one 200) (Deep.init ["1.2.3.4:8080"]) s
               ∧ Deep.finished s) as (s & Hr & Hf).
  { eexists. split.
    - eapply rtc_l.
      { split; [apply (Deep.step_acquire _ _ 0 "1.2.3.4:8080"); [reflexivity|simpl; lia]|].
        intros [|i] p alive H1 H2; simpl in H1; simplify_eq. }
      eapply rtc_l.
      { split; [apply (Deep.step_check _ _ 0 "1.2.3.4:8080" net_one); reflexivity|].
        intros [|i] p alive H1 H2; simpl in H1, H2; by simplify_eq. }
      eapply rtc_l.
      { split; [eapply (Deep.step_release _ _ 0 "1.2.3.4:8080"); [reflexivity|simpl; lia]|].
        intros [|i] p alive H1 H2; simpl in H1; simplify_eq. }
      eapply rtc_l.
      { split; [eapply (Deep.step_record _ _ 0 "1.2.3.4:8080"); reflexivity|].
        intros [|i] p alive H1 H2; simpl in H1; simplify_eq. }
      apply rtc_refl.
    - reflexivity. }
  exists s. split; [exact Hr|]. split; [exact Hf|].
  exact (proj1 (deep_verdicts_schedule_free _ _ _ _ Hr Hf)).
Defined.

(** X14. If the network answers the same way throughout a run of
    [validateProxies] of the ProxyChecker program with at least one
    worker, the valid list holds exactly the candidates that
    [checkProxy] accepts on that network and the invalid list exactly
    the others: the schedule and the number of workers decide the order
    of the two lists and nothing else. *)
Theorem checker_verdicts_schedule_free :
  ∀ net W proxies s,
    0 < W →
    rtc (Part001.step_under net) (Part001.init W proxies) s → Part001.finished s →
    Part001.validProxies s ≡ₚ filter (λ p, Part001.checkProxy net p) proxies ∧
    Part001.invalidProxies s
      ≡ₚ filter (λ p, negb (Part001.checkProxy net p)) proxies ∧
    (∀ W' s',
       0 < W' →
       rtc (Part001.step_under net) (Part001.init W' proxies) s' →
       Part001.finished s' →
       Part001.validProxies s' ≡ₚ Part001.validProxies s ∧
       Part001.invalidProxies s' ≡ₚ Part001.invalidProxies s).
Proof.
  intros net W proxies s HW Hr Hf.
  destruct (checker_stable_result net W proxies s HW Hr Hf) as [Hv Hiv].
  split_and!; [done|done|]. intros W' s' HW' Hr' Hf'.
  destruct (checker_stable_result net W' proxies s' HW' Hr' Hf') as [Hv' Hiv'].
  by rewrite Hv, Hiv, Hv', Hiv'.
Qed.

Lemma checker_verdicts_schedule_free_witness :
  ∃ s, rtc (Part001.step_under net_ok)
         (Part001.init 1 [Part001.mkProxy "1.2.3.4" "8080" "1.2.3.4:8080"]) s
       ∧ Part001.finished s
       ∧ Part001.validProxies s
           ≡ₚ filter (λ p, Part001.checkProxy net_ok p)
                [Part001.mkProxy "1.2.3.4" "8080" "1.2.3.4:8080"].
Proof.
  set (p := Part001.mkProxy "1.2.3.4" "8080" "1.2.3.4:8080").
  set (s1 := Part001.mkPool [] [p] 1 false [Part001.WIdle] [] []).
  set (s2 := Part001.mkPool [] [p] 1 true [Part001.WIdle] [] []).
  set (s3 := Part001.mkPool [] [] 1 true [Part001.WChecking p] [] []).
  set (s4 := Part001.mkPool [] [] 1 true [Part001.WChecked p true] [] []).
  set (s5 := Part001.mkPool [] [] 1 true [Part001.WIdle] [p] []).
  set (s6 := Part001.mkPool [] [] 1 true [Part001.WExited] [p] []).
  assert (Part001.step_under net_ok (Part001.init 1 [p]) s1) as H1.
  { split; [apply (Part001.step_send (Part001.init 1 [p]) p []); [reflexivity|vm_compute; lia]|].
    intros [|i] q ok Hq; simpl in Hq; simplify_eq. }
  assert (Part001.step_under net_ok s1 s2) as H2.
  { split; [by apply (Part001.step_close s1)|].
    intros [|i] q ok Hq; simpl in Hq; simplify_eq. }
  assert (Part001.step_under net_ok s2 s3) as H3.
  { split; [by apply (Part001.step_recv s2 0 p [])|].
    intros [|i] q ok Hq; simpl in Hq; simplify_eq. }
  assert (Part001.step_under net_ok s3 s4) as H4.
  { split; [exact (Part001.step_check s3 0 p net_ok eq_refl)|].
    intros [|i] q ok Hq Hq'; simpl in Hq, Hq'; by simplify_eq. }
  assert (Part001.step_under net_ok s4 s5) as H5.
  { split; [exact (Part001.step_record s4 0 p true eq_refl)|].
    intros [|i] q ok Hq; simpl in Hq; simplify_eq. }
  assert (Part001.step_under net_ok s5 s6) as H6.
  { split; [by apply (Part001.step_exit s5 0)|].
    intros [|i] q ok Hq; simpl in Hq; simplify_eq. }
  assert (rtc (Part001.step_under net_ok) (Part001.init 1 [p]) s6) as Hr.
  { do 6 (eapply rtc_l; [eassumption|]). apply rtc_refl. }
  assert (Part001.finished s6) as Hf.
  { split_and!; [done|done|]. by apply Forall_singleton. }
  exists s6. split; [exact Hr|]. split; [exact Hf|].
  exact (proj1 (checker_verdicts_schedule_free net_ok 1 _ s6 ltac:(lia) Hr Hf)).
Defined.

(** ** A whole run of deep.go *)
Lemma deep_run_live proxies s :
  NoDup proxies → Deep.run proxies s →
  NoDup (Deep.goodProxies s) ∧ (∀ x, x ∈ Deep.goodProxies s → x ∈ proxies).
Proof.
  intros Hnd [Hr Hf].
  destruct (deep_inv_reachable _ _ _ Hr) as [Ha _ _ Hg].
  assert (Deep.verdict_of true s `sublist_of` proxies) as Hsub.
  { rewrite <- Ha. unfold Deep.verdict_of. apply fmap_sublist, sublist_filter. }
  split.
  - rewrite Hg. by eapply sublist_NoDup.
  - intros x Hx. rewrite Hg in Hx. by eapply elem_of_sublist.
Qed.

(** X15. What a run of [main] of deep.go leaves behind, whatever the
    sources, the network, the schedule and the file system do. The
    process ends with status 0 and touches no file other than
    good_proxies.txt. The live list has no duplicate and holds only
    addresses that a source which answered delivered. If the live list
    is not empty and the write succeeds, the file holds the live
    addresses joined by newlines; if the write fails, the failure is
    logged, and still the last log line announces that the proxies were
    saved. *)
Theorem deep_main_persists :
  ∀ fetched os_WriteFile (fs : FS) out,
    Deep.main fetched os_WriteFile fs out →
    exit_status out = 0%Z ∧
    (∀ f, f ≠ Deep.goodProxiesFile → files out !! f = fs !! f) ∧
    NoDup (live out) ∧
    (∀ x, x ∈ live out → ∃ ps, Some ps ∈ fetched ∧ x ∈ ps) ∧
    (live out ≠ [] →
       let content := strings_Join (live out) (String "010" "") in
       match os_WriteFile Deep.goodProxiesFile content with
       | WriteOk => files out !! Deep.goodProxiesFile = Some content
       | WriteErr msg remains =>
           files out !! Deep.goodProxiesFile = remains
           ∧ Printf "Gagal menyimpan file: %v" [ArgS msg] ∈ log out
       end
       ∧ last (log out)
         = Some (Printf "Proxy yang baik disimpan di %s\n" [ArgS Deep.goodProxiesFile])).
Proof.
  intros fetched os fs out Hm.
  destruct Hm as [Hlen | s all Hlen Hrun w].
  { cbn [exit_status files live log]. split_and!; try done.
    - constructor.
    - intros x Hx. by apply elem_of_nil in Hx. }
  assert (NoDup all) as Hnd by apply deduplicateProxies_NoDup.
  destruct (deep_run_live all s Hnd Hrun) as [Hgnd Hgin].
  cbn [exit_status files live log]. subst w. unfold Deep.saveProxiesToFile.
  split_and!; [done| |done| |].
  - intros f Hf. destruct (length (Deep.goodProxies s) =? 0); [done|].
    cbn [fst snd].
    destruct (os _ _) as [|msg [c|]]; cbn [fst snd].
    + by rewrite lookup_insert_ne.
    + by rewrite lookup_insert_ne.
    + by rewrite lookup_delete_ne.
  - intros x Hx. apply deep_harvest_elem. by apply Hgin.
  - intros Hne. cbn zeta.
    destruct (Deep.goodProxies s) as [|g gs] eqn:Hg; [done|].
    cbn [length Nat.eqb fst snd].
    destruct (os _ _) as [|msg [c|]]; cbn [fst snd].
    + split; [by rewrite lookup_insert_eq|]. by rewrite last_snoc.
    + split; [|by rewrite last_snoc]. split; [by rewrite lookup_insert_eq|].
      rewrite !elem_of_app, !list_elem_of_singleton. tauto.
    + split; [|by rewrite last_snoc]. split; [by rewrite lookup_delete_eq|].
      rewrite !elem_of_app, !list_elem_of_singleton. tauto.
Qed.

Lemma deep_main_persists_witness :
  Deep.main [Some ["1.2.3.4:8080"; "5.6.7.8:3128"]; None] (λ _ _, WriteOk) ∅
    (mkOutcome 0
       [Println "Memulai proses scraping proxy...";
        Printf "Berhasil mengumpulkan %d proxy\n" [ArgI 2];
        Println "Memulai pengecekan proxy...";
        Printf "\nSelesai! Proxy baik: %d, Proxy mati: %d\n" [ArgI 1; ArgI 1];
        Printf "Proxy yang baik disimpan di %s\n" [ArgS Deep.goodProxiesFile]]
       (<[Deep.goodProxiesFile := "1.2.3.4:8080"]> ∅)
       ["1.2.3.4:8080"; "5.6.7.8:3128"] ["1.2.3.4:8080"])
  ∧ NoDup ["1.2.3.4:8080"].
Proof.
  assert (Deep.main [Some ["1.2.3.4:8080"; "5.6.7.8:3128"]; None] (λ _ _, WriteOk) ∅
    (mkOutcome 0
       [Println "Memulai proses scraping proxy...";
        Printf "Berhasil mengumpulkan %d proxy\n" [ArgI 2];
        Println "Memulai pengecekan proxy...";
        Printf "\nSelesai! Proxy baik: %d, Proxy mati: %d\n" [ArgI 1; ArgI 1];
        Printf "Proxy yang baik disimpan di %s\n" [ArgS Deep.goodProxiesFile]]
       (<[Deep.goodProxiesFile := "1.2.3.4:8080"]> ∅)
       ["1.2.3.4:8080"; "5.6.7.8:3128"] ["1.2.3.4:8080"])) as Hm.
  { assert (Deep.scrapeAllProxies [Some ["1.2.3.4:8080"; "5.6.7.8:3128"]; None]
            = ["1.2.3.4:8080"; "5.6.7.8:3128"]) as Hall
      by (vm_compute; reflexivity).
    pose proof (Deep.main_checked [Some ["1.2.3.4:8080"; "5.6.7.8:3128"]; None]
                  (λ _ _, WriteOk) ∅
                  (Deep.sequential_final net_one ["1.2.3.4:8080"; "5.6.7.8:3128"]))
      as Hmain.
    cbv zeta in Hmain. rewrite Hall in Hmain.
    apply Hmain; [done|]. apply deep_run_default. }
  split; [exact Hm|].
  exact (proj1 (proj2 (proj2 (deep_main_persists _ _ _ _ Hm)))).
Defined.
